(** * ddeint: delay differential equations on top of an ODE stepper

    A shallow embedding of [ddeint/ddeint.py]: the history variable
    [ddeVar], the stepper [dde] and the driver [ddeint].

    Conventions of the embedding.
    - Python floats are read as exact rationals ([Q]); the rounding of
      binary64 arithmetic is outside the model.  Where a result is the
      outcome of an arithmetic expression it is compared with [==] on [Q].
    - A Python exception is the [Raise] branch of [result]; a method that
      assigns to [self] returns the new object (explicit state passing).
    - [scipy.interpolate.interp1d] (kind ['linear'], [bounds_error=False])
      is modelled by the record [interp1d.t] with the attributes the module
      touches ([x], [y], [_y], [fill_value]) and the evaluation rule of the
      library: one-dimensional data goes through [numpy.interp] on
      ([x], [y]), two-dimensional data through the library's own linear
      routine on ([x], [_y]); values outside [[x[0], x[-1]]] are replaced by
      the fill value.
    - [scipy.integrate.ode.integrate] is a black box: a section variable. *)

From Stdlib Require Import QArith Lqa List Sorted Bool Arith Lia.
Import ListNotations.
Open Scope Q_scope.

(** ** Exceptions *)

Inductive exn : Type := ValueError | IndexError | TypeError | AttributeError.

Inductive result (A : Type) : Type :=
| Ok (a : A)
| Raise (e : exn).

Arguments Ok {A} a.
Arguments Raise {A} e.

Definition bind {A B : Type} (m : result A) (k : A -> result B) : result B :=
  match m with
  | Ok a => k a
  | Raise e => Raise e
  end.

Notation "x <- m ;; k" := (bind m (fun x => k))
  (at level 61, m at next level, right associativity).
Notation "' p <- m ;; k" := (bind m (fun x => match x with p => k end))
  (at level 61, p pattern, m at next level, right associativity).

Definition fmap {A B : Type} (h : A -> B) (m : result A) : result B :=
  x <- m ;; Ok (h x).

(** ** Numbers *)

(** [a < b] on floats, as a boolean. *)
Definition Qltb (a b : Q) : bool := negb (Qle_bool b a).

(** The literal [1.0E-10]. *)
Definition eps : Q := 1 # 10000000000.

(** ** numpy values

    A value of the system is a Python float (or a 0-dimensional array),
    [Num], or a one-dimensional array, [Arr]. *)

Inductive value : Type :=
| Num (q : Q)
| Arr (v : list Q).

(** [np.size] *)
Definition size (v : value) : nat :=
  match v with
  | Num _ => 1%nat
  | Arr l => length l
  end.

(** [np.atleast_1d]: what [ode.set_initial_value] stores ([isscalar(y)]
    gives [[y]]). *)
Definition to_array (v : value) : list Q :=
  match v with
  | Num q => [q]
  | Arr l => l
  end.

(** Equality of values as numbers. *)
Definition value_eq (u v : value) : Prop :=
  match u, v with
  | Num a, Num b => a == b
  | Arr a, Arr b => Forall2 Qeq a b
  | _, _ => False
  end.

(** Arrays of dimension one and two; a two-dimensional array is the list
    of its rows. *)
Inductive ndarray : Type :=
| A1 (l : list Q)
| A2 (rows : list (list Q)).

Fixpoint nums (vs : list value) : option (list Q) :=
  match vs with
  | [] => Some []
  | Num q :: vs' => option_map (cons q) (nums vs')
  | Arr _ :: _ => None
  end.

Fixpoint arrs (vs : list value) : option (list (list Q)) :=
  match vs with
  | [] => Some []
  | Arr r :: vs' => option_map (cons r) (arrs vs')
  | Num _ :: _ => None
  end.

(** All rows as long as [n]. *)
Definition width_is (n : nat) (rows : list (list Q)) : bool :=
  forallb (fun r => length r =? n)%nat rows.

(** [np.array([v1, ..., vn])] of floats or of arrays of one length; a
    ragged list is a [ValueError]. *)
Definition np_array (vs : list value) : result ndarray :=
  match nums vs with
  | Some l => Ok (A1 l)
  | None =>
      match arrs vs with
      | Some (r :: rows) =>
          if width_is (length r) rows then Ok (A2 (r :: rows))
          else Raise ValueError
      | _ => Raise ValueError
      end
  end.

(** Column [j] of a table. *)
Definition column (j : nat) (rows : list (list Q)) : list Q :=
  map (fun r => nth j r 0) rows.

(** The transpose of a table with [n] columns. *)
Definition transpose (n : nat) (rows : list (list Q)) : list (list Q) :=
  map (fun j => column j rows) (seq 0 n).

(** [a.T] *)
Definition np_T (a : ndarray) : ndarray :=
  match a with
  | A1 l => A1 l
  | A2 rows => A2 (transpose (length (hd [] rows)) rows)
  end.

(** [np.hstack([a, Y])] with [Y] one-dimensional. *)
Definition np_hstack (a : ndarray) (Y : list Q) : result ndarray :=
  match a with
  | A1 l => Ok (A1 (l ++ Y))
  | A2 _ => Raise ValueError
  end.

(** [np.vstack([rows, Y2])] with [Y2 = np.array([Y], ndmin=2)]. *)
Definition np_vstack (rows : list (list Q)) (Y : list Q)
  : result (list (list Q)) :=
  if width_is (length Y) rows then Ok (rows ++ [Y]) else Raise ValueError.

(** [np.diff(tt)] *)
Fixpoint np_diff (tt : list Q) : list Q :=
  match tt with
  | a :: ((b :: _) as tl) => (b - a) :: np_diff tl
  | _ => []
  end.

(** [l[i]] *)
Definition index {A : Type} (l : list A) (i : nat) : result A :=
  match nth_error l i with
  | Some a => Ok a
  | None => Raise IndexError
  end.

(** ** The interpolator *)

Module interp1d.

Record t : Type := mk {
  x : list Q;
  y : ndarray;
  _y : list (list Q);
  fill_value : list Q
}.

Definition set_x (v : list Q) (self : t) : t :=
  mk v (y self) (_y self) (fill_value self).

Definition set_y (v : ndarray) (self : t) : t :=
  mk (x self) v (_y self) (fill_value self).

Definition set__y (v : list (list Q)) (self : t) : t :=
  mk (x self) (y self) v (fill_value self).

(** The shape of one value: [None] for one-dimensional data, the number of
    components for two-dimensional data ([y] has one row per component). *)
Definition extra (a : ndarray) : option nat :=
  match a with
  | A1 _ => None
  | A2 m => Some (length m)
  end.

(** A fill value broadcasts to the shape of one value when it has one
    element or exactly that shape. *)
Definition broadcasts (fv : value) (d : option nat) : bool :=
  (size fv =? 1)%nat ||
  match fv, d with
  | Arr l, Some n => (length l =? n)%nat
  | _, _ => false
  end.

(** The setter of the property [fill_value]: the value is checked against
    the shape of [y] and stored flattened. *)
Definition set_fill_value (fv : value) (self : t) : result t :=
  if broadcasts fv (extra (y self))
  then Ok (mk (x self) (y self) (_y self) (to_array fv))
  else Raise ValueError.

(** The interpolation axis of [y] moved first: one row per sample. *)
Definition _reshape_yi (n : nat) (a : ndarray) : list (list Q) :=
  match a with
  | A1 l => map (fun q => [q]) l
  | A2 m => transpose n m
  end.

(** The samples of [a] along its last axis number [n]. *)
Definition axis_len_is (n : nat) (a : ndarray) : bool :=
  match a with
  | A1 l => (length l =? n)%nat
  | A2 m => width_is n m
  end.

(** [interp1d(x, y, kind='linear', bounds_error=False, fill_value=fv)].
    The library sorts [x]; the module passes increasing times, which the
    sort leaves as they are. *)
Definition new (xs : list Q) (ys : ndarray) (fv : value) : result t :=
  if negb (axis_len_is (length xs) ys) then Raise ValueError
  else if (length xs <? 2)%nat then Raise ValueError
  else set_fill_value fv (mk xs ys (_reshape_yi (length xs) ys) []).

(** The index search of [numpy.interp]: the last [j] with
    [xp[j] <= key], scanning from [xp[1]] (the library's linear search;
    its binary search finds the same index on increasing times). *)
Fixpoint scan (key : Q) (l : list Q) : nat :=
  match l with
  | [] => 0%nat
  | a :: l' => if Qle_bool a key then S (scan key l') else 0%nat
  end.

(** [numpy.interp(v, xp, fp)] *)
Definition np_interp (v : Q) (xp fp : list Q) : result Q :=
  if negb (length xp =? length fp)%nat then Raise ValueError
  else
    match xp with
    | [] => Raise ValueError
    | x0 :: rest =>
        if Qltb (last xp 0) v then Ok (last fp 0)
        else if Qltb v x0 then Ok (hd 0 fp)
        else
          let j := scan v rest in
          if (j =? length xp - 1)%nat then Ok (nth j fp 0)
          else if Qeq_bool (nth j xp 0) v then Ok (nth j fp 0)
          else
            let slope :=
              (nth (S j) fp 0 - nth j fp 0) / (nth (S j) xp 0 - nth j xp 0) in
            Ok (slope * (v - nth j xp 0) + nth j fp 0)
    end.

(** [numpy.searchsorted(xs, v)]: the index of the first element not below
    [v] (what the library's binary search finds on increasing times). *)
Fixpoint searchsorted (xs : list Q) (v : Q) : nat :=
  match xs with
  | [] => 0%nat
  | a :: xs' => if Qltb a v then S (searchsorted xs' v) else 0%nat
  end.

(** [i.clip(lo, hi)] *)
Definition clip (i lo hi : nat) : nat := Nat.min (Nat.max i lo) hi.

(** [slope*(x_new - x_lo) + y_lo] with
    [slope = (y_hi - y_lo)/(x_hi - x_lo)], component by component. *)
Definition lerp (x_lo x_hi x_new : Q) (y_lo y_hi : list Q) : list Q :=
  map (fun p : Q * Q =>
         let (lo, hi) := p in
         (hi - lo) / (x_hi - x_lo) * (x_new - x_lo) + lo)
      (combine y_lo y_hi).

Definition _call_linear (self : t) (x_new : Q) : result (list Q) :=
  let x_new_indices :=
    clip (searchsorted (x self) x_new) 1 (length (x self) - 1) in
  let lo := (x_new_indices - 1)%nat in
  let hi := x_new_indices in
  x_lo <- index (x self) lo ;;
  x_hi <- index (x self) hi ;;
  y_lo <- index (_y self) lo ;;
  y_hi <- index (_y self) hi ;;
  Ok (lerp x_lo x_hi x_new y_lo y_hi).

(** The fill value written over one interpolated value. *)
Definition filled (a : ndarray) (fv : list Q) : result value :=
  match a, fv with
  | A1 _, [q] => Ok (Num q)
  | A2 m, [q] => Ok (Arr (repeat q (length m)))
  | A2 m, _ => if (length fv =? length m)%nat then Ok (Arr fv)
               else Raise ValueError
  | A1 _, _ => Raise ValueError
  end.

(** [self(x_new)] for one time [x_new]. *)
Definition call (self : t) (x_new : Q) : result value :=
  y_new <- match y self with
           | A1 ys => q <- np_interp x_new (x self) ys ;; Ok (Num q)
           | A2 _ => r <- _call_linear self x_new ;; Ok (Arr r)
           end ;;
  x0 <- index (x self) 0 ;;
  let below_bounds := Qltb x_new x0 in
  let above_bounds := Qltb (last (x self) 0) x_new in
  if below_bounds || above_bounds
  then filled (y self) (fill_value self)
  else Ok y_new.

End interp1d.

(** ** The history variable *)

Module ddeVar.

Record obj : Type := mk {
  g : Q -> value;
  tc : Q;
  itpr : interp1d.t
}.

(** [ddeVar(g, tc, Y0)] *)
Definition __init__ (g : Q -> value) (tc : Q) (Y0 : option value)
  : result obj :=
  let Y0 := match Y0 with
            | None => g tc
            | Some v => v
            end in
  a <- np_array [g (tc - 1); g (tc - eps); Y0] ;;
  itpr <- interp1d.new [tc - 1; tc - eps; tc] (np_T a) (g tc) ;;
  Ok (mk g tc itpr).

(** [self.update(t, Y)]; [Y] is the state array of the stepper. *)
Definition update (t : Q) (Y : list Q) (self : obj) : result obj :=
  let i1 := interp1d.set_x (interp1d.x (itpr self) ++ [t]) (itpr self) in
  i2 <- (if (length Y =? 1)%nat
         then y' <- np_hstack (interp1d.y i1) Y ;;
              Ok (interp1d.set_y y' i1)
         else _y' <- np_vstack (interp1d._y i1) Y ;;
              Ok (interp1d.set__y _y' i1)) ;;
  i3 <- interp1d.set_fill_value (Arr Y) i2 ;;
  Ok (mk (g self) (tc self) i3).

(** [self(t)]: the value and the object after the call. *)
Definition __call__ (t : Q) (self : obj) : result (value * obj) :=
  if Qltb t (tc self) then Ok (g self t, self)
  else v <- interp1d.call (itpr self) t ;; Ok (v, self).

(** The object as the function a right-hand side is given. *)
Definition as_function (self : obj) (t : Q) : result value :=
  fmap fst (__call__ t self).

(** [update] for a sequence of samples, first to last. *)
Fixpoint updates (l : list (Q * list Q)) (self : obj) : result obj :=
  match l with
  | [] => Ok self
  | (t, Y) :: l' => self' <- update t Y self ;; updates l' self'
  end.

(** The stored samples, one (time, value) pair per row of the table the
    interpolator evaluates. *)
Definition samples (self : obj) : list (Q * list Q) :=
  match interp1d.y (itpr self) with
  | A1 ys => combine (interp1d.x (itpr self)) (map (fun q => [q]) ys)
  | A2 _ => combine (interp1d.x (itpr self)) (interp1d._y (itpr self))
  end.

End ddeVar.

(** ** The stepper and the driver *)

(** A right-hand side [f(Y, t, *args)]: [Y] is called like a function. *)
Definition rhs : Type :=
  (Q -> result value) -> Q -> list Q -> result (list Q).

Section Solver.

(** [scipy.integrate.ode.integrate]: from the derivative [f(t, y)], the
    state [y] at time [t] and the target time, the new state and time. *)
Variable ode_integrate :
  (Q -> list Q -> result (list Q)) -> list Q -> Q -> Q -> result (list Q * Q).

Record dde : Type := mk_dde {
  f : rhs;
  Y : option ddeVar.obj;
  t : Q;
  y : list Q;
  f_params : option (list Q)
}.

(** [dde(f)]: [Y] is not set yet, [set_f_params(None)]; [t] and [y] are
    not read before [set_initial_value] sets them. *)
Definition dde__init__ (func : rhs) : dde := mk_dde func None 0 [] None.

(** The closure [f2(t, y, args) = f(self.Y, t, *args)] with the parameters
    of the stepper. *)
Definition f2 (self : dde) (t : Q) (_ : list Q) : result (list Q) :=
  match Y self, f_params self with
  | None, _ => Raise AttributeError
  | Some _, None => Raise TypeError
  | Some Yv, Some args => f self (ddeVar.as_function Yv) t args
  end.

Definition set_f_params (args : list Q) (self : dde) : dde :=
  mk_dde (f self) (Y self) (t self) (y self) (Some args).

(** [self.set_initial_value(Y)] *)
Definition set_initial_value (Yv : ddeVar.obj) (self : dde) : result dde :=
  '(y0, Yv') <- ddeVar.__call__ (ddeVar.tc Yv) Yv ;;
  Ok (mk_dde (f self) (Some Yv') (ddeVar.tc Yv') (to_array y0)
             (f_params self)).

(** [self.integrate(t)]: the returned state and the stepper after it. *)
Definition integrate (target : Q) (self : dde) : result (list Q * dde) :=
  '(y', t') <- ode_integrate (f2 self) (y self) (t self) target ;;
  Yv <- match Y self with
        | Some Yv => Ok Yv
        | None => Raise AttributeError
        end ;;
  Yv' <- ddeVar.update t' y' Yv ;;
  Ok (y', mk_dde (f self) (Some Yv') t' y' (f_params self)).

(** [[dde_.integrate(dde_.t + dt) for dt in dts]] *)
Fixpoint integrate_all (dts : list Q) (self : dde)
  : result (list (list Q) * dde) :=
  match dts with
  | [] => Ok ([], self)
  | dt :: dts' =>
      '(r, self1) <- integrate (t self + dt) self ;;
      '(rs, self2) <- integrate_all dts' self1 ;;
      Ok (r :: rs, self2)
  end.

(** [ddeint(func, g, tt, fargs, Y0, with_model)]: the list
    [[g(tt[0])] + results] and, with [with_model], the history variable.
    The packing of the list into one array is not modelled. *)
Definition ddeint (func : rhs) (g : Q -> value) (tt : list Q)
  (fargs : option (list Q)) (Y0 : option value) (with_model : bool)
  : result (list value * option ddeVar.obj) :=
  let dde_ := dde__init__ func in
  t0 <- index tt 0 ;;
  Yv <- ddeVar.__init__ g t0 Y0 ;;
  dde_ <- set_initial_value Yv dde_ ;;
  let dde_ := set_f_params (match fargs with
                            | Some args => args
                            | None => []
                            end) dde_ in
  '(results, dde_) <- integrate_all (np_diff tt) dde_ ;;
  let out := g t0 :: map Arr results in
  if with_model then Ok (out, Y dde_) else Ok (out, None).

End Solver.


(** * Vocabulary of the properties *)

(** The table of an interpolator is aligned with its sample times, and the
    fill value has the shape of one value. *)
Definition tabular (i : interp1d.t) : Prop :=
  (2 <= length (interp1d.x i))%nat /\
  match interp1d.y i with
  | A1 ys =>
      length ys = length (interp1d.x i) /\
      length (interp1d.fill_value i) = 1%nat /\
      interp1d._y i <> [] /\
      Forall (fun r => length r = 1%nat) (interp1d._y i)
  | A2 m =>
      length (interp1d._y i) = length (interp1d.x i) /\
      Forall (fun r => length r = length m) (interp1d._y i) /\
      (length (interp1d.fill_value i) = 1%nat \/
       length (interp1d.fill_value i) = length m)
  end.

(** The history variables the module can build: [ddeVar(g, tc, Y0)]
    followed by any number of [update]s. *)
Inductive reachable : ddeVar.obj -> Prop :=
| reach_init (g : Q -> value) (tc : Q) (Y0 : option value) (h : ddeVar.obj) :
    ddeVar.__init__ g tc Y0 = Ok h -> reachable h
| reach_update (t : Q) (Y : list Q) (h h' : ddeVar.obj) :
    reachable h -> ddeVar.update t Y h = Ok h' -> reachable h'.

(** The sample times of a history variable. *)
Definition times (h : ddeVar.obj) : list Q := interp1d.x (ddeVar.itpr h).

(** The invariant of reachable history variables: an aligned table whose
    first three sample times are the seeded ones. *)
Definition Inv (h : ddeVar.obj) : Prop :=
  tabular (ddeVar.itpr h) /\
  exists rest,
    times h = [ddeVar.tc h - 1; ddeVar.tc h - eps; ddeVar.tc h] ++ rest.

(** The shape of the state array a history variable accepts. *)
Definition accepts (h : ddeVar.obj) (Y : list Q) : Prop :=
  match interp1d.y (ddeVar.itpr h) with
  | A1 _ => length Y = 1%nat
  | A2 m => length Y = length m /\ length m <> 1%nat
  end.

(** The shape of a value: [None] for a float, the length for an array. *)
Definition shape (v : value) : option nat :=
  match v with
  | Num _ => None
  | Arr l => Some (length l)
  end.

(** [n] calls in a row, each on the object the previous one left. *)
Fixpoint calls (n : nat) (t : Q) (h : ddeVar.obj)
  : result (list value * ddeVar.obj) :=
  match n with
  | O => Ok ([], h)
  | S n' =>
      '(v, h1) <- ddeVar.__call__ t h ;;
      '(vs, h2) <- calls n' t h1 ;;
      Ok (v :: vs, h2)
  end.

(** The stepper after [set_initial_value] and [set_f_params]. *)
Definition started (func : rhs) (h : ddeVar.obj) (y0 : list Q)
  (fargs : option (list Q)) : dde :=
  mk_dde func (Some h) (ddeVar.tc h) y0
         (Some match fargs with
               | Some args => args
               | None => []
               end).


Section Runs.

Variable ode_integrate :
  (Q -> list Q -> result (list Q)) -> list Q -> Q -> Q -> result (list Q * Q).

(** The solver returns, with a state as long as the one it was given. *)
Definition solver_returns : Prop :=
  forall f y t target,
  exists y' t',
    ode_integrate f y t target = Ok (y', t') /\ length y' = length y.

(** The solver returns at the target time, with a state as long as the
    one it was given. *)
Definition solver_reaches : Prop :=
  forall f y t target,
  exists y',
    ode_integrate f y t target = Ok (y', target) /\ length y' = length y.


End Runs.

(** ** Examples *)

(** A scalar pre-history and the pre-history of the module's docstring,
    [g = lambda t : array([1+t, 2-t])]. *)
Definition g_scalar (t : Q) : value := Num (1 + t).
Definition g_xy (t : Q) : value := Arr [1 + t; 2 - t].

(** Exponential decay, [Y'(t) = -Y(t)], and the delayed Lotka-Volterra
    model of the docstring. *)
Definition decay : rhs := fun Y t _ =>
  v <- Y t ;; Ok (map Qopp (to_array v)).


(** One explicit Euler step to the target time; a derivative that cannot
    be evaluated leaves the state where it is. *)
Definition euler (f : Q -> list Q -> result (list Q)) (y : list Q)
  (t target : Q) : result (list Q * Q) :=
  match f t y with
  | Ok dy =>
      if (length dy =? length y)%nat
      then Ok (map (fun p : Q * Q => Qred (fst p + (target - t) * snd p))
                   (combine y dy), target)
      else Ok (y, target)
  | Raise _ => Ok (y, target)
  end.

(** The Euler stepper with a time limit: it raises beyond the limit. *)
Definition euler_until (limit : Q) (f : Q -> list Q -> result (list Q))
  (y : list Q) (t target : Q) : result (list Q * Q) :=
  if Qltb limit target then Raise ValueError else euler f y t target.

(** A pre-history of arrays of one element. *)
Definition g_one (t : Q) : value := Arr [1 + t].

(** [ddeVar(g_scalar, 0)] *)
Definition h_scalar : ddeVar.obj :=
  ddeVar.mk g_scalar 0
    (interp1d.mk [0 - 1; 0 - eps; 0]
       (A1 [1 + (0 - 1); 1 + (0 - eps); 1 + 0])
       [[1 + (0 - 1)]; [1 + (0 - eps)]; [1 + 0]]
       [1 + 0]).

(** * Properties *)

(** ** Comparisons and the exception monad *)

Lemma Qltb_lt (a b : Q) : Qltb a b = true <-> a < b.
Proof.
  unfold Qltb. rewrite negb_true_iff, <- not_true_iff_false, Qle_bool_iff.
  split; [apply Qnot_le_lt | apply Qlt_not_le].
Qed.

Lemma Qltb_ge (a b : Q) : Qltb a b = false <-> b <= a.
Proof.
  unfold Qltb. rewrite negb_false_iff. apply Qle_bool_iff.
Qed.

Lemma Qltb_irrefl (a : Q) : Qltb a a = false.
Proof. apply Qltb_ge, Qle_refl. Qed.

Lemma bind_Ok {A B : Type} (m : result A) (k : A -> result B) (b : B) :
  bind m k = Ok b -> exists a, m = Ok a /\ k a = Ok b.
Proof.
  destruct m as [a | e]; simpl; intros H; [eauto | discriminate].
Qed.

(** Splits a conjunction that is written out, without unfolding. *)
Ltac splits := repeat match goal with |- _ /\ _ => split end.

(** Splits a hypothesis [bind m k = Ok b] into its two steps. *)
Ltac bind_inv H :=
  let a := fresh "a" in
  let Ha := fresh "Ha" in
  apply bind_Ok in H; destruct H as (a & Ha & H).

Tactic Notation "bind_inv" hyp(H) "as" ident(a) ident(Ha) :=
  apply bind_Ok in H; destruct H as (a & Ha & H).

Lemma before_tc_1 (tc : Q) : tc - 1 < tc.
Proof.
  rewrite <- (Qplus_0_r tc) at 2. unfold Qminus.
  apply Qplus_lt_r. reflexivity.
Qed.

Lemma before_tc_eps (tc : Q) : tc - eps < tc.
Proof.
  rewrite <- (Qplus_0_r tc) at 2. unfold Qminus.
  apply Qplus_lt_r. reflexivity.
Qed.

(** ** Lists and tables *)

Lemma index_Ok {A : Type} (l : list A) (i : nat) (d : A) :
  (i < length l)%nat -> index l i = Ok (nth i l d).
Proof.
  intros H. unfold index.
  rewrite (nth_error_nth' l d H). reflexivity.
Qed.

Lemma index_app_last {A : Type} (l : list A) (a : A) :
  index (l ++ [a]) (length l) = Ok a.
Proof.
  unfold index. rewrite nth_error_app2 by lia.
  rewrite Nat.sub_diag. reflexivity.
Qed.

Lemma index_app_left {A : Type} (l l' : list A) (i : nat) :
  (i < length l)%nat -> index (l ++ l') i = index l i.
Proof.
  intros H. unfold index. rewrite nth_error_app1 by exact H. reflexivity.
Qed.

Lemma width_is_Forall (n : nat) (rows : list (list Q)) :
  width_is n rows = true <-> Forall (fun r => length r = n) rows.
Proof.
  unfold width_is. rewrite forallb_forall, Forall_forall.
  split; intros H r Hr; apply Nat.eqb_eq, H, Hr.
Qed.

Lemma column_length (j : nat) (rows : list (list Q)) :
  length (column j rows) = length rows.
Proof. apply length_map. Qed.

Lemma transpose_length (n : nat) (rows : list (list Q)) :
  length (transpose n rows) = n.
Proof. unfold transpose. rewrite length_map. apply length_seq. Qed.

Lemma transpose_width (n : nat) (rows : list (list Q)) :
  Forall (fun r => length r = length rows) (transpose n rows).
Proof.
  unfold transpose. apply Forall_forall. intros r Hr.
  apply in_map_iff in Hr. destruct Hr as (j & <- & _).
  apply column_length.
Qed.

Lemma map_nth_seq {A : Type} (l : list A) (d : A) :
  map (fun i => nth i l d) (seq 0 (length l)) = l.
Proof.
  apply (nth_ext _ _ d d).
  - rewrite length_map, length_seq. reflexivity.
  - intros i Hi. rewrite length_map, length_seq in Hi.
    rewrite (nth_indep _ d (nth 0 l d)) by
      (rewrite length_map, length_seq; exact Hi).
    rewrite (map_nth (fun i => nth i l d) (seq 0 (length l)) 0%nat i).
    rewrite seq_nth by exact Hi. reflexivity.
Qed.

(** Transposing twice gives the table back. *)
Lemma transpose_involutive (d : nat) (rows : list (list Q)) :
  Forall (fun r => length r = d) rows ->
  transpose (length rows) (transpose d rows) = rows.
Proof.
  intros Hw. unfold transpose at 1.
  transitivity (map (fun i => nth i rows []) (seq 0 (length rows)));
    [| apply map_nth_seq].
  apply map_ext_in. intros i Hi. apply in_seq in Hi.
  assert (Hr : length (nth i rows []) = d).
  { rewrite Forall_forall in Hw. apply Hw, nth_In. lia. }
  unfold column, transpose. rewrite map_map.
  transitivity (map (fun j => nth j (nth i rows []) 0) (seq 0 d));
    [| rewrite <- Hr; apply map_nth_seq].
  apply map_ext. intros j.
  rewrite (nth_indep _ 0 ((fun r => nth j r 0) []))
    by (rewrite column_length; lia).
  unfold column.
  rewrite (map_nth (fun r => nth j r 0) rows [] i). reflexivity.
Qed.

Lemma nth_pred_length_last {A : Type} (l : list A) (d : A) :
  nth (length l - 1) l d = last l d.
Proof.
  induction l as [| a l IH]; [reflexivity |].
  destruct l as [| b l']; [reflexivity |].
  replace (length (a :: b :: l') - 1)%nat with (S (length (b :: l') - 1))
    by (simpl; lia).
  exact IH.
Qed.

Lemma nth_length_app {A : Type} (l : list A) (a d : A) :
  nth (length l) (l ++ [a]) d = a.
Proof. rewrite app_nth2 by lia. rewrite Nat.sub_diag. reflexivity. Qed.

(** ** The interpolator *)

Lemma scan_all (key : Q) (l : list Q) :
  Forall (fun s => s <= key) l -> interp1d.scan key l = length l.
Proof.
  induction 1 as [| a l Ha _ IH]; simpl; [reflexivity |].
  apply Qle_bool_iff in Ha. rewrite Ha, IH. reflexivity.
Qed.

Lemma searchsorted_app_key (xs : list Q) (key : Q) :
  Forall (fun s => s < key) xs ->
  interp1d.searchsorted (xs ++ [key]) key = length xs.
Proof.
  induction 1 as [| a l Ha _ IH]; simpl.
  - rewrite Qltb_irrefl. reflexivity.
  - apply Qltb_lt in Ha. rewrite Ha, IH. reflexivity.
Qed.

(** [numpy.interp] returns a number on arrays of one length. *)
Lemma np_interp_total (v : Q) (xp fp : list Q) :
  length xp = length fp -> xp <> [] ->
  exists q, interp1d.np_interp v xp fp = Ok q.
Proof.
  intros Hlen Hne. unfold interp1d.np_interp.
  rewrite Hlen, Nat.eqb_refl. simpl negb. cbv iota.
  destruct xp as [| x0 rest]; [contradiction |].
  destruct (Qltb (last (x0 :: rest) 0) v); [eauto |].
  destruct (Qltb v x0); [eauto |].
  destruct (_ =? _)%nat; [eauto |].
  destruct (Qeq_bool _ _); eauto.
Qed.

(** At the last sample time [numpy.interp] returns the last sample. *)
Lemma np_interp_last (xs ys : list Q) (t q : Q) :
  Forall (fun s => s < t) xs -> length xs = length ys ->
  interp1d.np_interp t (xs ++ [t]) (ys ++ [q]) = Ok q.
Proof.
  intros Hlt Hlen. unfold interp1d.np_interp.
  rewrite !length_app, Hlen, Nat.eqb_refl. simpl negb. cbv iota.
  rewrite last_last, Qltb_irrefl.
  destruct xs as [| x0 rest]; simpl app.
  - destruct ys; [| discriminate]. rewrite Qltb_irrefl. reflexivity.
  - inversion Hlt as [| ? ? Hx0 Hrest]; subst.
    assert (Hge : Qltb t x0 = false) by (apply Qltb_ge, Qlt_le_weak, Hx0).
    rewrite Hge.
    assert (Hscan : interp1d.scan t (rest ++ [t]) = length ys).
    { rewrite scan_all.
      - rewrite length_app. simpl in Hlen |- *. lia.
      - apply Forall_app. split.
        + eapply Forall_impl; [| exact Hrest]. intros s. apply Qlt_le_weak.
        + constructor; [apply Qle_refl | constructor]. }
    rewrite Hscan.
    replace (length ys + length [t] - 1)%nat with (length ys)
      by (simpl; lia).
    rewrite Nat.eqb_refl. rewrite nth_length_app. reflexivity.
Qed.

Lemma lerp_length (x_lo x_hi x_new : Q) (y_lo y_hi : list Q) :
  length y_lo = length y_hi ->
  length (interp1d.lerp x_lo x_hi x_new y_lo y_hi) = length y_hi.
Proof.
  intros H. unfold interp1d.lerp.
  rewrite length_map, length_combine, H. apply Nat.min_id.
Qed.

(** At the upper end of its interval the linear formula gives the upper
    sample, as a number. *)
Lemma lerp_hi (x_lo x_hi : Q) (y_lo y_hi : list Q) :
  x_lo < x_hi -> length y_lo = length y_hi ->
  Forall2 Qeq (interp1d.lerp x_lo x_hi x_hi y_lo y_hi) y_hi.
Proof.
  intros Hx. revert y_hi.
  induction y_lo as [| lo y_lo IH]; intros [| hi y_hi] Hlen;
    try discriminate; [constructor |].
  unfold interp1d.lerp. simpl. constructor.
  - assert (Hne : ~ x_hi - x_lo == 0).
    { intros H0. lra. }
    field. exact Hne.
  - apply IH. simpl in Hlen. lia.
Qed.

Lemma set_fill_value_Ok (fv : value) (i i' : interp1d.t) :
  interp1d.set_fill_value fv i = Ok i' ->
  interp1d.x i' = interp1d.x i /\ interp1d.y i' = interp1d.y i /\
  interp1d._y i' = interp1d._y i /\ interp1d.fill_value i' = to_array fv /\
  match interp1d.y i with
  | A1 _ => length (to_array fv) = 1%nat
  | A2 m => length (to_array fv) = 1%nat \/ length (to_array fv) = length m
  end.
Proof.
  unfold interp1d.set_fill_value, interp1d.broadcasts.
  destruct (size fv =? 1)%nat eqn:Hs.
  - simpl. intros H. injection H as <-. simpl.
    apply Nat.eqb_eq in Hs.
    assert (Hl : length (to_array fv) = 1%nat) by (destruct fv; exact Hs).
    repeat split; try reflexivity. destruct (interp1d.y i); auto.
  - simpl. destruct fv as [q | l]; [discriminate |].
    destruct (interp1d.y i) as [ys | m] eqn:Hy; simpl; [discriminate |].
    destruct (length l =? length m)%nat eqn:Hl; [| discriminate].
    intros H. injection H as <-. simpl. apply Nat.eqb_eq in Hl.
    repeat split; auto.
Qed.

Lemma new_Ok (xs : list Q) (ys : ndarray) (fv : value) (i : interp1d.t) :
  interp1d.new xs ys fv = Ok i ->
  tabular i /\ interp1d.x i = xs /\ interp1d.y i = ys /\
  interp1d._y i = interp1d._reshape_yi (length xs) ys /\
  interp1d.fill_value i = to_array fv.
Proof.
  unfold interp1d.new.
  destruct (interp1d.axis_len_is (length xs) ys) eqn:Hax; [| discriminate].
  destruct (length xs <? 2)%nat eqn:H2; [discriminate |].
  simpl negb. cbv iota. intros H.
  apply set_fill_value_Ok in H. simpl in H.
  destruct H as (Hx & Hy & H_y & Hf & Hshape).
  apply Nat.ltb_ge in H2.
  repeat split; try assumption.
  - rewrite Hx. exact H2.
  - unfold tabular. rewrite Hy, Hx, H_y, Hf. clear Hx Hy H_y Hf.
    destruct ys as [l | m]; simpl in *.
    + apply Nat.eqb_eq in Hax. repeat split; auto.
      * destruct l as [| q l]; [simpl in Hax; lia | discriminate].
      * apply Forall_forall. intros r Hr.
        apply in_map_iff in Hr. destruct Hr as (q & <- & _). reflexivity.
    + rewrite transpose_length. repeat split; auto.
      apply transpose_width.
Qed.

(** The linear routine returns a row on an aligned table. *)
Lemma _call_linear_total (i : interp1d.t) (v : Q) :
  (2 <= length (interp1d.x i))%nat ->
  length (interp1d._y i) = length (interp1d.x i) ->
  exists r, interp1d._call_linear i v = Ok r.
Proof.
  intros H2 Hlen. unfold interp1d._call_linear.
  set (hi := interp1d.clip _ _ _).
  assert (Hhi : (1 <= hi <= length (interp1d.x i) - 1)%nat)
    by (unfold hi, interp1d.clip; lia).
  rewrite (index_Ok (interp1d.x i) (hi - 1) 0) by lia.
  rewrite (index_Ok (interp1d.x i) hi 0) by lia.
  rewrite (index_Ok (interp1d._y i) (hi - 1) []) by lia.
  rewrite (index_Ok (interp1d._y i) hi []) by lia.
  simpl. eauto.
Qed.

(** At a time later than every older sample, the linear routine works on
    the last interval. *)
Lemma _call_linear_last (xs : list Q) (a : ndarray) (rows : list (list Q))
  (fv Y : list Q) (t : Q) :
  Forall (fun s => s < t) xs -> xs <> [] -> length rows = length xs ->
  interp1d._call_linear (interp1d.mk (xs ++ [t]) a (rows ++ [Y]) fv) t
  = Ok (interp1d.lerp (last xs 0) t t (last rows []) Y).
Proof.
  intros Hlt Hne Hlen. unfold interp1d._call_linear. simpl.
  rewrite searchsorted_app_key by exact Hlt.
  assert (Hpos : (1 <= length xs)%nat)
    by (destruct xs; [contradiction | simpl; lia]).
  replace (interp1d.clip (length xs) 1 (length (xs ++ [t]) - 1))
    with (length xs)
    by (unfold interp1d.clip; rewrite length_app; simpl; lia).
  rewrite index_app_left by lia.
  rewrite (index_Ok xs (length xs - 1) 0) by lia.
  rewrite index_app_last.
  rewrite index_app_left by lia.
  rewrite (index_Ok rows (length xs - 1) []) by lia.
  rewrite nth_pred_length_last.
  rewrite <- Hlen. rewrite index_app_last, nth_pred_length_last.
  reflexivity.
Qed.

Lemma filled_A2 (m : list (list Q)) (fv : list Q) :
  length fv = length m -> interp1d.filled (A2 m) fv = Ok (Arr fv).
Proof.
  intros H. unfold interp1d.filled.
  destruct fv as [| q [| q' fv']].
  - simpl in *. rewrite <- H. reflexivity.
  - simpl in H. rewrite <- H. reflexivity.
  - rewrite H, Nat.eqb_refl. reflexivity.
Qed.

(** The fill value can always be written over a value of a well-formed
    interpolator. *)
Lemma filled_total (i : interp1d.t) :
  tabular i ->
  exists v, interp1d.filled (interp1d.y i) (interp1d.fill_value i) = Ok v.
Proof.
  intros (_ & H). destruct (interp1d.y i) as [ys | m].
  - destruct H as (_ & Hf & _).
    destruct (interp1d.fill_value i) as [| q [| ? ?]];
      simpl in Hf; try lia.
    simpl. eauto.
  - destruct H as (_ & _ & [Hf | Hf]).
    + destruct (interp1d.fill_value i) as [| q [| ? ?]];
        simpl in Hf; try lia.
      simpl. eauto.
    + rewrite filled_A2 by exact Hf. eauto.
Qed.

(** The interpolated value before the bounds are looked at. *)
Lemma interpolated_total (i : interp1d.t) (v : Q) :
  tabular i ->
  exists y_new,
    match interp1d.y i with
    | A1 ys => q <- interp1d.np_interp v (interp1d.x i) ys ;; Ok (Num q)
    | A2 _ => r <- interp1d._call_linear i v ;; Ok (Arr r)
    end = Ok y_new.
Proof.
  intros (H2 & H). destruct (interp1d.y i) as [ys | m].
  - destruct H as (Hlen & _).
    destruct (np_interp_total v (interp1d.x i) ys) as (q & Hq).
    + symmetry. exact Hlen.
    + intros E. rewrite E in H2. simpl in H2. lia.
    + rewrite Hq. simpl. eauto.
  - destruct H as (Hlen & _).
    destruct (_call_linear_total i v H2 Hlen) as (r & Hr).
    rewrite Hr. simpl. eauto.
Qed.

(** Evaluation never raises on a well-formed interpolator. *)
Lemma call_total (i : interp1d.t) (v : Q) :
  tabular i -> exists r, interp1d.call i v = Ok r.
Proof.
  intros Hi. unfold interp1d.call.
  destruct (interpolated_total i v Hi) as (y_new & ->). simpl.
  destruct Hi as (H2 & Hrest).
  rewrite (index_Ok (interp1d.x i) 0 0) by lia. simpl.
  destruct (_ || _); [| eauto].
  apply filled_total. split; assumption.
Qed.

(** Beyond the last sample time the fill value is returned. *)
Lemma call_above (i : interp1d.t) (v : Q) :
  tabular i -> last (interp1d.x i) 0 < v ->
  interp1d.call i v = interp1d.filled (interp1d.y i) (interp1d.fill_value i).
Proof.
  intros Hi Hv. unfold interp1d.call.
  destruct (interpolated_total i v Hi) as (y_new & ->). simpl.
  destruct Hi as (H2 & _).
  rewrite (index_Ok (interp1d.x i) 0 0) by lia. simpl.
  apply Qltb_lt in Hv. rewrite Hv, orb_true_r. reflexivity.
Qed.

(** ** The history variable *)

Lemma np_array_3 (v1 v2 v3 : value) (a : ndarray) :
  np_array [v1; v2; v3] = Ok a ->
  (exists a1 a2 a3,
      v1 = Num a1 /\ v2 = Num a2 /\ v3 = Num a3 /\ a = A1 [a1; a2; a3]) \/
  (exists r1 r2 r3,
      v1 = Arr r1 /\ v2 = Arr r2 /\ v3 = Arr r3 /\
      length r2 = length r1 /\ length r3 = length r1 /\
      a = A2 [r1; r2; r3]).
Proof.
  unfold np_array.
  destruct v1 as [a1 | r1], v2 as [a2 | r2], v3 as [a3 | r3];
    simpl; try discriminate.
  - intros H. injection H as <-. left. eauto 10.
  - destruct (length r2 =? length r1)%nat eqn:H2; [| discriminate].
    destruct (length r3 =? length r1)%nat eqn:H3; [| discriminate].
    simpl. intros H. injection H as <-.
    apply Nat.eqb_eq in H2, H3. right. eauto 12.
Qed.

(** What the constructor builds. *)
Lemma init_Ok (g : Q -> value) (tc : Q) (Y0 : option value) (h : ddeVar.obj) :
  ddeVar.__init__ g tc Y0 = Ok h ->
  let Y0' := match Y0 with
             | None => g tc
             | Some v => v
             end in
  ddeVar.g h = g /\ ddeVar.tc h = tc /\
  times h = [tc - 1; tc - eps; tc] /\
  tabular (ddeVar.itpr h) /\
  interp1d.fill_value (ddeVar.itpr h) = to_array (g tc) /\
  ddeVar.samples h =
    [(tc - 1, to_array (g (tc - 1))); (tc - eps, to_array (g (tc - eps)));
     (tc, to_array Y0')] /\
  (match interp1d.y (ddeVar.itpr h) with
   | A1 ys => exists q, Y0' = Num q /\ ys = [hd 0 (to_array (g (tc - 1)));
                                               hd 0 (to_array (g (tc - eps))); q]
   | A2 m => exists r1 r2 r3,
       g (tc - 1) = Arr r1 /\ g (tc - eps) = Arr r2 /\ Y0' = Arr r3 /\
       length r2 = length r3 /\ length m = length r3 /\
       interp1d._y (ddeVar.itpr h) = [r1; r2; r3]
   end).
Proof.
  intros H Y0'. unfold ddeVar.__init__ in H. fold Y0' in H.
  bind_inv H as a Ha. bind_inv H as a0 Ha0. injection H as <-.
  apply new_Ok in Ha0. destruct Ha0 as (Htab & Hx & Hy & H_y & Hf).
  unfold times, ddeVar.samples. simpl.
  rewrite Hx, Hy, H_y, Hf. clear Hx H_y Hf.
  apply np_array_3 in Ha.
  destruct Ha as [(a1 & a2 & a3 & E1 & E2 & E3 & ->)
                 | (r1 & r2 & r3 & E1 & E2 & E3 & L2 & L3 & ->)];
    rewrite E1, E2, E3.
  - simpl. splits; auto. eauto.
  - assert (Hw : Forall (fun r => length r = length r1) [r1; r2; r3])
      by (repeat constructor; assumption).
    pose proof (transpose_involutive (length r1) [r1; r2; r3] Hw) as Hinv.
    cbn [np_T hd length interp1d._reshape_yi to_array] in Hinv |- *.
    rewrite Hinv. cbn [combine].
    splits; auto.
    exists r1, r2, r3. rewrite transpose_length.
    splits; auto; lia.
Qed.

Lemma init_Inv (g : Q -> value) (tc : Q) (Y0 : option value) (h : ddeVar.obj) :
  ddeVar.__init__ g tc Y0 = Ok h -> Inv h.
Proof.
  intros H. apply init_Ok in H.
  destruct H as (_ & Htc & Hx & Htab & _).
  split; [exact Htab |]. exists []. rewrite Htc, Hx. reflexivity.
Qed.

(** What [update] changes: the sample times, one of the two tables and the
    fill value; nothing else. *)
Lemma update_Ok (t : Q) (Y : list Q) (h h' : ddeVar.obj) :
  ddeVar.update t Y h = Ok h' ->
  ddeVar.g h' = ddeVar.g h /\ ddeVar.tc h' = ddeVar.tc h /\
  times h' = times h ++ [t] /\
  interp1d.fill_value (ddeVar.itpr h') = Y /\
  ((length Y = 1%nat /\
    exists ys, interp1d.y (ddeVar.itpr h) = A1 ys /\
               interp1d.y (ddeVar.itpr h') = A1 (ys ++ Y) /\
               interp1d._y (ddeVar.itpr h') = interp1d._y (ddeVar.itpr h)) \/
   (length Y <> 1%nat /\
    interp1d.y (ddeVar.itpr h') = interp1d.y (ddeVar.itpr h) /\
    interp1d._y (ddeVar.itpr h') = interp1d._y (ddeVar.itpr h) ++ [Y] /\
    Forall (fun r => length r = length Y) (interp1d._y (ddeVar.itpr h)))).
Proof.
  unfold ddeVar.update, times. intros H.
  bind_inv H as i2 Hi2. bind_inv H as i3 Hi3. injection H as <-. simpl.
  apply set_fill_value_Ok in Hi3.
  destruct Hi3 as (Hx & Hy & H_y & Hf & _).
  rewrite Hx, Hy, H_y, Hf. clear Hx Hy H_y Hf. simpl to_array.
  destruct (length Y =? 1)%nat eqn:HY.
  - apply Nat.eqb_eq in HY. bind_inv Hi2 as y' Hy'. injection Hi2 as <-.
    unfold np_hstack in Hy'. simpl in Hy'.
    destruct (interp1d.y (ddeVar.itpr h)) as [ys | m] eqn:Hy;
      [| discriminate].
    injection Hy' as <-. simpl.
    splits; auto. left. eauto.
  - apply Nat.eqb_neq in HY. bind_inv Hi2 as y' Hy'. injection Hi2 as <-.
    unfold np_vstack in Hy'. simpl in Hy'.
    destruct (width_is _ _) eqn:Hw; [| discriminate].
    injection Hy' as <-. simpl.
    splits; auto. right. splits; auto.
    apply width_is_Forall. exact Hw.
Qed.

Lemma update_tabular (t : Q) (Y : list Q) (h h' : ddeVar.obj) :
  tabular (ddeVar.itpr h) -> ddeVar.update t Y h = Ok h' ->
  tabular (ddeVar.itpr h').
Proof.
  intros (H2 & Htab) H. apply update_Ok in H.
  destruct H as (_ & _ & Hx & Hf & Hcase). unfold times in Hx.
  unfold tabular. rewrite Hx, Hf, length_app. simpl length.
  split; [lia |].
  destruct Hcase as [(HY & ys & Hy & Hy' & H_y) | (HY & Hy' & H_y & Hw)].
  - rewrite Hy', H_y. rewrite Hy in Htab.
    destruct Htab as (Hlen & _ & Hne & Hw1).
    rewrite length_app. splits; auto; lia.
  - rewrite Hy', H_y.
    destruct (interp1d.y (ddeVar.itpr h)) as [ys | m].
    + destruct Htab as (_ & _ & Hne & Hw1). exfalso. apply HY.
      destruct (interp1d._y (ddeVar.itpr h)) as [| r rows];
        [contradiction |].
      inversion Hw as [| ? ? Hr _]. inversion Hw1 as [| ? ? Hr1 _].
      congruence.
    + destruct Htab as (Hlen & Hwm & _).
      assert (HYm : length Y = length m).
      { destruct (interp1d._y (ddeVar.itpr h)) as [| r rows];
          [simpl in Hlen; lia |].
        inversion Hw as [| ? ? Hr _]. inversion Hwm as [| ? ? Hrm _].
        congruence. }
      rewrite length_app. simpl length. splits; auto; try lia.
      apply Forall_app. split; [exact Hwm |]. constructor; auto.
Qed.

Lemma update_Inv (t : Q) (Y : list Q) (h h' : ddeVar.obj) :
  Inv h -> ddeVar.update t Y h = Ok h' -> Inv h'.
Proof.
  intros (Htab & rest & Hx) H. split.
  - eapply update_tabular; eassumption.
  - apply update_Ok in H. destruct H as (_ & Htc & Hx' & _).
    exists (rest ++ [t]). rewrite Hx', Hx, Htc, <- app_assoc. reflexivity.
Qed.

(** Every reachable history variable satisfies the invariant. *)
Lemma reachable_Inv (h : ddeVar.obj) : reachable h -> Inv h.
Proof.
  induction 1 as [g tc Y0 h H | t Y h h' _ IH H].
  - eapply init_Inv. exact H.
  - eapply update_Inv; eassumption.
Qed.

(** The seeded times of a history variable end with [tc]. *)
Lemma Inv_times (h : ddeVar.obj) (t : Q) :
  Inv h -> Forall (fun s => s < t) (times h) ->
  ddeVar.tc h < t /\ times h <> [].
Proof.
  intros (_ & rest & Hx) Hlt. rewrite Hx in Hlt |- *.
  split; [| discriminate].
  simpl in Hlt. rewrite !Forall_cons_iff in Hlt. tauto.
Qed.

(** [update] succeeds on every state array of the accepted shape, at any
    time. *)
Lemma update_total (t : Q) (Y : list Q) (h : ddeVar.obj) :
  tabular (ddeVar.itpr h) -> accepts h Y ->
  exists h', ddeVar.update t Y h = Ok h'.
Proof.
  intros (_ & Htab) Hacc. unfold accepts in Hacc.
  unfold ddeVar.update, interp1d.set_fill_value, interp1d.broadcasts.
  simpl.
  destruct (interp1d.y (ddeVar.itpr h)) as [ys | m] eqn:Hy.
  - rewrite Hacc. simpl. eauto.
  - destruct Hacc as (HY & Hm).
    assert (E : (length Y =? 1)%nat = false) by (apply Nat.eqb_neq; lia).
    rewrite E. unfold np_vstack. simpl.
    destruct Htab as (_ & Hw & _).
    rewrite <- HY in Hw. apply width_is_Forall in Hw. rewrite Hw.
    simpl. rewrite Hy. simpl. rewrite HY, Nat.eqb_refl. simpl. eauto.
Qed.


(** ** Dispatch of [__call__] *)

Lemma call_before_tc (h : ddeVar.obj) (t : Q) :
  t < ddeVar.tc h -> ddeVar.__call__ t h = Ok (ddeVar.g h t, h).
Proof.
  intros H. unfold ddeVar.__call__.
  apply Qltb_lt in H. rewrite H. reflexivity.
Qed.

Lemma call_from_tc (h : ddeVar.obj) (t : Q) :
  ddeVar.tc h <= t ->
  ddeVar.__call__ t h = (v <- interp1d.call (ddeVar.itpr h) t ;; Ok (v, h)).
Proof.
  intros H. unfold ddeVar.__call__.
  apply Qltb_ge in H. rewrite H. reflexivity.
Qed.

(** C2. A call at a time before [tc] returns [g(t)], computed by the
    pre-history function alone; at any other time the call is the
    interpolator's. *)
Theorem call_dispatch (h : ddeVar.obj) (t : Q) :
  (t < ddeVar.tc h -> ddeVar.__call__ t h = Ok (ddeVar.g h t, h)) /\
  (ddeVar.tc h <= t ->
   ddeVar.__call__ t h =
   (v <- interp1d.call (ddeVar.itpr h) t ;; Ok (v, h))).
Proof.
  split; intros H.
  - apply call_before_tc. exact H.
  - apply call_from_tc. exact H.
Qed.

Lemma call_dispatch_witness :
  exists h,
    ddeVar.__init__ g_scalar 0 (Some (Num 5)) = Ok h /\
    - (1 # 2) < ddeVar.tc h /\
    ddeVar.__call__ (- (1 # 2)) h = Ok (Num (1 + - (1 # 2)), h) /\
    ddeVar.tc h <= 0 /\
    ddeVar.__call__ 0 h = Ok (Num 5, h).
Proof.
  eexists. split; [reflexivity |].
  split; [reflexivity |].
  split; [apply call_dispatch; reflexivity |].
  split; [discriminate |].
  rewrite (proj2 (call_dispatch _ 0)) by discriminate.
  reflexivity.
Defined.

Lemma call_total_reachable (h : ddeVar.obj) (t : Q) :
  Inv h -> exists v, ddeVar.__call__ t h = Ok (v, h).
Proof.
  intros (Htab & _). unfold ddeVar.__call__.
  destruct (Qltb t (ddeVar.tc h)); [eauto |].
  destruct (call_total (ddeVar.itpr h) t Htab) as (v & ->).
  simpl. eauto.
Qed.

(** C9. A call returns a value and leaves the object as it was; any number
    of calls at one time return that value again. *)
Theorem call_read_only (h : ddeVar.obj) (t : Q) :
  reachable h ->
  exists v,
    ddeVar.__call__ t h = Ok (v, h) /\
    (forall h' w, ddeVar.__call__ t h = Ok (w, h') -> h' = h /\ w = v) /\
    (forall n, calls n t h = Ok (repeat v n, h)).
Proof.
  intros Hr. apply reachable_Inv in Hr.
  destruct (call_total_reachable h t Hr) as (v & Hv).
  exists v. splits; [exact Hv | |].
  - intros h' w Hw. rewrite Hv in Hw. injection Hw as <- <-. auto.
  - induction n as [| n IH]; simpl; [reflexivity |].
    rewrite Hv. simpl. rewrite IH. reflexivity.
Qed.

Lemma call_read_only_witness :
  exists h,
    reachable h /\
    ddeVar.__call__ (1 # 2) h = Ok (Arr [7; 8], h) /\
    calls 3 (1 # 2) h = Ok ([Arr [7; 8]; Arr [7; 8]; Arr [7; 8]], h).
Proof.
  assert (Hr : exists h0 h,
             ddeVar.__init__ g_xy 0 None = Ok h0 /\
             ddeVar.update (1 # 4) [7; 8] h0 = Ok h /\
             ddeVar.__call__ (1 # 2) h = Ok (Arr [7; 8], h)).
  { eexists. eexists. split; [reflexivity |]. split; reflexivity. }
  destruct Hr as (h0 & h & H0 & H1 & Hc).
  assert (R : reachable h)
    by (eapply reach_update; [eapply reach_init; exact H0 | exact H1]).
  exists h. split; [exact R |]. split; [exact Hc |].
  destruct (call_read_only h (1 # 2) R) as (v & Hv & _ & Hn).
  rewrite Hc in Hv. injection Hv as <-. exact (Hn 3%nat).
Defined.

(** ** The frame of [update] *)

Lemma updates_frame (l : list (Q * list Q)) (h h' : ddeVar.obj) :
  ddeVar.updates l h = Ok h' ->
  ddeVar.g h' = ddeVar.g h /\ ddeVar.tc h' = ddeVar.tc h.
Proof.
  revert h. induction l as [| [t Y] l IH]; simpl; intros h H.
  - injection H as <-. auto.
  - bind_inv H as h1 H1. apply IH in H. apply update_Ok in H1.
    destruct H as (Hg & Htc), H1 as (Hg1 & Htc1 & _).
    split; congruence.
Qed.

(** C10. [update] leaves [g] and [tc] alone, so the value at a time before
    [tc] is the same before and after any sequence of updates. *)
Theorem update_frame (l : list (Q * list Q)) (h h' : ddeVar.obj) (s : Q) :
  ddeVar.updates l h = Ok h' ->
  ddeVar.g h' = ddeVar.g h /\ ddeVar.tc h' = ddeVar.tc h /\
  (s < ddeVar.tc h ->
   ddeVar.__call__ s h = Ok (ddeVar.g h s, h) /\
   ddeVar.__call__ s h' = Ok (ddeVar.g h s, h')).
Proof.
  intros H. apply updates_frame in H. destruct H as (Hg & Htc).
  splits; [exact Hg | exact Htc |].
  intros Hs. split.
  - apply call_before_tc. exact Hs.
  - rewrite <- Hg. apply call_before_tc. rewrite Htc. exact Hs.
Qed.

Lemma update_frame_witness :
  exists h h',
    ddeVar.__init__ g_xy 0 None = Ok h /\
    ddeVar.updates [(1 # 4, [7; 8]); (1 # 2, [5; 6])] h = Ok h' /\
    ddeVar.__call__ (- (1)) h = Ok (g_xy (- (1)), h) /\
    ddeVar.__call__ (- (1)) h' = Ok (g_xy (- (1)), h').
Proof.
  assert (E : exists h h',
             ddeVar.__init__ g_xy 0 None = Ok h /\
             ddeVar.updates [(1 # 4, [7; 8]); (1 # 2, [5; 6])] h = Ok h' /\
             ddeVar.g h = g_xy /\ - (1) < ddeVar.tc h).
  { eexists. eexists. splits; reflexivity. }
  destruct E as (h & h' & H0 & H1 & Hg & Htc).
  exists h, h'. split; [exact H0 |]. split; [exact H1 |].
  rewrite <- Hg. apply (update_frame _ _ _ (- (1)) H1). exact Htc.
Defined.

(** ** Appending a sample *)

Lemma combine_snoc {A B : Type} (l : list A) (l' : list B) (a : A) (b : B) :
  length l = length l' ->
  combine (l ++ [a]) (l' ++ [b]) = combine l l' ++ [(a, b)].
Proof.
  revert l'. induction l as [| x l IH]; intros [| x' l'] H;
    try discriminate; [reflexivity |].
  simpl. rewrite IH by (simpl in H; lia). reflexivity.
Qed.

Lemma length_1 {A : Type} (l : list A) :
  length l = 1%nat -> exists a, l = [a].
Proof.
  destruct l as [| a [| b l]]; try discriminate. eauto.
Qed.


(** [update] adds the pair [(t, Y)] after the stored samples. *)
Lemma update_samples (t : Q) (Y : list Q) (h h' : ddeVar.obj) :
  tabular (ddeVar.itpr h) -> ddeVar.update t Y h = Ok h' ->
  ddeVar.samples h' = ddeVar.samples h ++ [(t, Y)].
Proof.
  intros (_ & Htab) H. apply update_Ok in H.
  destruct H as (_ & _ & Hx & _ & Hcase). unfold times in Hx.
  unfold ddeVar.samples. rewrite Hx.
  destruct Hcase as [(HY & ys & Hy & Hy' & _) | (HY & Hy' & H_y & Hw)].
  - rewrite Hy', Hy. rewrite Hy in Htab. destruct Htab as (Hlen & _).
    destruct (length_1 Y HY) as (q & ->).
    rewrite map_app. simpl map. apply combine_snoc.
    rewrite length_map. symmetry. exact Hlen.
  - rewrite Hy', H_y.
    destruct (interp1d.y (ddeVar.itpr h)) as [ys | m].
    + destruct Htab as (_ & _ & Hne & Hw1). exfalso. apply HY.
      destruct (interp1d._y (ddeVar.itpr h)) as [| r rows];
        [contradiction |].
      inversion Hw as [| ? ? Hr _]. inversion Hw1 as [| ? ? Hr1 _].
      congruence.
    + destruct Htab as (Hlen & _). apply combine_snoc.
      symmetry. exact Hlen.
Qed.

(** The value returned beyond the last sample time, after an update. *)
Lemma filled_after_update (t : Q) (Y : list Q) (h h' : ddeVar.obj) :
  tabular (ddeVar.itpr h) -> ddeVar.update t Y h = Ok h' ->
  exists v,
    interp1d.filled (interp1d.y (ddeVar.itpr h'))
                    (interp1d.fill_value (ddeVar.itpr h')) = Ok v /\
    to_array v = Y.
Proof.
  intros Htab H. pose proof (update_tabular _ _ _ _ Htab H) as (_ & Htab').
  apply update_Ok in H. destruct H as (_ & _ & _ & Hf & Hcase).
  rewrite Hf in Htab' |- *.
  destruct Hcase as [(HY & ys & _ & Hy' & _) | (HY & _)].
  - rewrite Hy'. destruct (length_1 Y HY) as (q & ->).
    exists (Num q). split; reflexivity.
  - destruct (interp1d.y (ddeVar.itpr h')) as [ys | m].
    + destruct Htab' as (_ & H1 & _). contradiction.
    + destruct Htab' as (_ & _ & [H1 | Hm]); [contradiction |].
      exists (Arr Y). split; [apply filled_A2; exact Hm | reflexivity].
Qed.

(** After any [update(t1, Y)], a call at a time beyond [t1] that is not
    before [tc] returns [Y]. *)
Lemma fill_after_update (h h' : ddeVar.obj) (t1 t : Q) (Y : list Q) :
  Inv h -> ddeVar.update t1 Y h = Ok h' ->
  t1 < t -> ddeVar.tc h <= t ->
  exists v, ddeVar.__call__ t h' = Ok (v, h') /\ to_array v = Y.
Proof.
  intros Hr Hup Ht Htc.
  pose proof (update_Inv _ _ _ _ Hr Hup) as (Htab' & _).
  destruct Hr as (Htab & _).
  destruct (filled_after_update _ _ _ _ Htab Hup) as (v & Hv & HvY).
  apply update_Ok in Hup. destruct Hup as (_ & Htc' & Hx & _).
  exists v. split; [| exact HvY].
  unfold ddeVar.__call__.
  assert (E : Qltb t (ddeVar.tc h') = false)
    by (apply Qltb_ge; rewrite Htc'; exact Htc).
  rewrite E, call_above, Hv; [reflexivity | exact Htab' |].
  unfold times in Hx. rewrite Hx, last_last. exact Ht.
Qed.

(** X1. Before the first update the fill value is [g(tc)], also when [Y0]
    is given: a call beyond [tc] on a freshly built history variable
    returns [g(tc)]. *)
Lemma fill_before_update (g : Q -> value) (tc t : Q) (Y0 : option value)
  (h : ddeVar.obj) :
  ddeVar.__init__ g tc Y0 = Ok h ->
  shape (g tc) = shape match Y0 with
                       | None => g tc
                       | Some v => v
                       end ->
  tc < t ->
  exists v, ddeVar.__call__ t h = Ok (v, h) /\ to_array v = to_array (g tc).
Proof.
  intros H Hs Ht. apply init_Ok in H.
  destruct H as (_ & Htc & Hx & Htab & Hf & _ & Hy).
  unfold ddeVar.__call__. rewrite Htc.
  assert (E : Qltb t tc = false) by (apply Qltb_ge; lra).
  rewrite E, call_above, Hf;
    [| exact Htab | unfold times in Hx; rewrite Hx; exact Ht].
  destruct (interp1d.y (ddeVar.itpr h)) as [ys | m].
  - destruct Hy as (q & EY & _). rewrite EY in Hs.
    destruct (g tc) as [a | l]; [| discriminate]. simpl. eauto.
  - destruct Hy as (r1 & r2 & r3 & _ & _ & EY & _ & Hm & _).
    rewrite EY in Hs. destruct (g tc) as [a | l]; [discriminate |].
    simpl in Hs. injection Hs as Hs. simpl to_array.
    rewrite filled_A2 by congruence. simpl. eauto.
Qed.

(** C1. After [update(t1, Y)] at a time later than every stored sample, a
    call at any later time returns [Y], the fill value set by the update:
    the last sample is held, not extended along the last slope. *)
Theorem flat_extrapolation (h h' : ddeVar.obj) (t1 t : Q) (Y : list Q) :
  reachable h ->
  Forall (fun s => s < t1) (times h) ->
  ddeVar.update t1 Y h = Ok h' ->
  t1 < t ->
  interp1d.fill_value (ddeVar.itpr h') = Y /\
  exists v, ddeVar.__call__ t h' = Ok (v, h') /\ to_array v = Y.
Proof.
  intros Hr Hlt Hup Ht. apply reachable_Inv in Hr.
  destruct (Inv_times h t1 Hr Hlt) as (Htc & _).
  split.
  - apply update_Ok in Hup. tauto.
  - apply (fill_after_update h h' t1 t Y Hr Hup Ht). lra.
Qed.

Lemma flat_extrapolation_witness :
  exists h h',
    reachable h /\
    Forall (fun s => s < 1 # 4) (times h) /\
    ddeVar.update (1 # 4) [7; 8] h = Ok h' /\
    (1 # 4) < 3 /\
    ddeVar.__call__ 3 h' = Ok (Arr [7; 8], h').
Proof.
  assert (E : exists h h',
             ddeVar.__init__ g_xy 0 (Some (Arr [3; 4])) = Ok h /\
             times h = [0 - 1; 0 - eps; 0] /\
             ddeVar.update (1 # 4) [7; 8] h = Ok h').
  { eexists. eexists. splits; reflexivity. }
  destruct E as (h & h' & H0 & Hx & H1).
  assert (R : reachable h) by (eapply reach_init; exact H0).
  assert (F : Forall (fun s => s < 1 # 4) (times h))
    by (rewrite Hx; repeat constructor).
  exists h, h'. splits; [exact R | exact F | exact H1 | reflexivity |].
  destruct (flat_extrapolation h h' (1 # 4) 3 [7; 8] R F H1 eq_refl)
    as (_ & v & Hv & Ev).
  destruct v as [q | l]; simpl in Ev; [discriminate |].
  rewrite Ev in Hv. exact Hv.
Defined.




(** ** Construction *)

(** The constructor returns when the pre-history and the initial value
    have one shape. *)
Lemma init_total (g : Q -> value) (tc : Q) (Y0 : option value) :
  let Y0' := match Y0 with
             | None => g tc
             | Some v => v
             end in
  shape (g (tc - 1)) = shape Y0' -> shape (g (tc - eps)) = shape Y0' ->
  shape (g tc) = shape Y0' ->
  exists h, ddeVar.__init__ g tc Y0 = Ok h.
Proof.
  intros Y0' S1 S2 S3. unfold ddeVar.__init__. fold Y0'.
  destruct Y0' as [q | r3];
    destruct (g (tc - 1)) as [a1 | r1]; try discriminate;
    destruct (g (tc - eps)) as [a2 | r2]; try discriminate;
    destruct (g tc) as [a | r]; try discriminate.
  - simpl. eauto.
  - simpl in S1, S2, S3. injection S1 as S1. injection S2 as S2.
    injection S3 as S3.
    unfold np_array. simpl nums. simpl arrs. cbv iota beta.
    assert (W : width_is (length r1) [r2; r3] = true).
    { apply width_is_Forall. repeat constructor; congruence. }
    rewrite W. simpl bind. unfold interp1d.new.
    assert (A : interp1d.axis_len_is (length [tc - 1; tc - eps; tc])
                  (A2 (transpose (length r1) [r1; r2; r3])) = true).
    { unfold interp1d.axis_len_is.
      apply width_is_Forall.
      exact (transpose_width (length r1) [r1; r2; r3]). }
    rewrite A. simpl negb. cbv iota. simpl Nat.ltb. cbv iota.
    unfold interp1d.set_fill_value, interp1d.broadcasts.
    simpl interp1d.y. simpl np_T. simpl interp1d.extra.
    rewrite transpose_length.
    assert (B : (length r =? length r1)%nat = true)
      by (apply Nat.eqb_eq; congruence).
    rewrite B, orb_true_r. simpl. eauto.
Qed.

(** The call at [tc] on a freshly built history variable. *)
Lemma init_call_tc (g : Q -> value) (tc : Q) (Y0 : option value)
  (h : ddeVar.obj) :
  ddeVar.__init__ g tc Y0 = Ok h ->
  let Y0' := match Y0 with
             | None => g tc
             | Some v => v
             end in
  exists v,
    ddeVar.__call__ tc h = Ok (v, h) /\ value_eq v Y0' /\
    shape v = shape Y0' /\
    (forall q, Y0' = Num q -> v = Num q).
Proof.
  intros H Y0'. apply init_Ok in H. fold Y0' in H.
  destruct H as (_ & Htc & Hx & (H2 & _) & _ & _ & Hy).
  unfold times in Hx. unfold ddeVar.__call__, interp1d.call.
  rewrite Htc, Qltb_irrefl, Hx.
  assert (Hlt : Forall (fun s => s < tc) [tc - 1; tc - eps])
    by (repeat constructor; [apply before_tc_1 | apply before_tc_eps]).
  assert (Hbelow : Qltb tc (tc - 1) = false)
    by (apply Qltb_ge, Qlt_le_weak, before_tc_1).
  destruct (interp1d.y (ddeVar.itpr h)) as [ys | m].
  - destruct Hy as (q & EY & ->).
    pose proof (np_interp_last [tc - 1; tc - eps]
                  [hd 0 (to_array (g (tc - 1)));
                   hd 0 (to_array (g (tc - eps)))]
                  tc q Hlt eq_refl) as Hi.
    simpl app in Hi. rewrite Hi. simpl. rewrite Hbelow, Qltb_irrefl. simpl.
    exists (Num q). rewrite EY.
    splits; simpl;
      [reflexivity | reflexivity | reflexivity
      | intros q' E; injection E as <-; reflexivity].
  - destruct Hy as (r1 & r2 & r3 & _ & _ & EY & L23 & _ & H_y).
    assert (Hlin : interp1d._call_linear (ddeVar.itpr h) tc
                   = Ok (interp1d.lerp (tc - eps) tc tc r2 r3)).
    { destruct (ddeVar.itpr h) as [x' y' _y' f']. simpl in Hx, H_y.
      subst x' _y'.
      apply (_call_linear_last [tc - 1; tc - eps] y' [r1; r2] f' r3 tc Hlt);
        [discriminate | reflexivity]. }
    rewrite Hlin. simpl. rewrite Hbelow, Qltb_irrefl. simpl.
    eexists. split; [reflexivity |]. rewrite EY. splits; simpl.
    + apply lerp_hi; [apply before_tc_eps | exact L23].
    + rewrite lerp_length by exact L23. reflexivity.
    + discriminate.
Qed.



(** ** No ordering check in [update] *)

Lemma update_raises (t : Q) (Y : list Q) (h : ddeVar.obj) (e : exn) :
  ddeVar.update t Y h = Raise e -> e = ValueError.
Proof.
  unfold ddeVar.update, np_hstack, np_vstack, interp1d.set_fill_value.
  simpl.
  destruct (length Y =? 1)%nat.
  - destruct (interp1d.y (ddeVar.itpr h)); simpl.
    + destruct (interp1d.broadcasts _ _); simpl; congruence.
    + congruence.
  - destruct (width_is _ _); simpl; [| congruence].
    destruct (interp1d.broadcasts _ _); simpl; congruence.
Qed.

(** An update at a time that is not later than the stored samples is
    carried out like any other. *)
Lemma update_out_of_order :
  exists h h',
    ddeVar.__init__ g_scalar 0 None = Ok h /\
    times h = [0 - 1; 0 - eps; 0] /\
    - (1 # 2) <= last (times h) 0 /\
    ddeVar.update (- (1 # 2)) [9] h = Ok h' /\
    (forall e, ddeVar.update (- (1 # 2)) [9] h <> Raise e) /\
    times h' = [0 - 1; 0 - eps; 0; - (1 # 2)] /\
    interp1d.y (ddeVar.itpr h') = A1 [1 + (0 - 1); 1 + (0 - eps); 1 + 0; 9].
Proof.
  eexists. eexists.
  split; [reflexivity |]. split; [reflexivity |].
  split; [discriminate |]. split; [reflexivity |].
  split; [discriminate |].
  split; reflexivity.
Qed.

(** An array state of one element is never accepted: [update] takes the
    scalar branch and cannot stack a one-dimensional array on the
    two-dimensional [y]. *)
Lemma update_one_element_array (t : Q) (Y : list Q) (h : ddeVar.obj)
  (m : list (list Q)) :
  interp1d.y (ddeVar.itpr h) = A2 m -> length Y = 1%nat ->
  ddeVar.update t Y h = Raise ValueError.
Proof.
  intros Hy HY. unfold ddeVar.update. rewrite HY. simpl.
  rewrite Hy. reflexivity.
Qed.

(** C5, as the code has it. [update] does not compare [t] with the stored
    sample times: at any [t], a state array of the accepted shape is
    appended with its time and becomes the fill value; the only failure
    is the [ValueError] of an array of another shape. *)
Theorem update_unguarded (h : ddeVar.obj) (t : Q) (Y : list Q) :
  reachable h ->
  (accepts h Y ->
   exists h',
     ddeVar.update t Y h = Ok h' /\
     times h' = times h ++ [t] /\
     ddeVar.samples h' = ddeVar.samples h ++ [(t, Y)] /\
     interp1d.fill_value (ddeVar.itpr h') = Y) /\
  (forall e, ddeVar.update t Y h = Raise e ->
             e = ValueError /\ ~ accepts h Y).
Proof.
  intros Hr. apply reachable_Inv in Hr. destruct Hr as (Htab & _).
  split.
  - intros Hacc. destruct (update_total t Y h Htab Hacc) as (h' & H).
    exists h'. split; [exact H |].
    pose proof (update_samples _ _ _ _ Htab H) as Hs.
    apply update_Ok in H. destruct H as (_ & _ & Hx & Hf & _).
    splits; assumption.
  - intros e H. split; [eapply update_raises; exact H |].
    intros Hacc. destruct (update_total t Y h Htab Hacc) as (h' & H').
    congruence.
Qed.

Lemma update_unguarded_witness :
  exists h h',
    reachable h /\ accepts h [9] /\
    0 <= last (times h) 0 /\
    ddeVar.update 0 [9] h = Ok h' /\
    times h' = times h ++ [0] /\
    ddeVar.samples h' = ddeVar.samples h ++ [(0, [9])].
Proof.
  assert (E : exists h,
             ddeVar.__init__ g_scalar 0 None = Ok h /\
             accepts h [9] /\ 0 <= last (times h) 0).
  { eexists. splits; [reflexivity | reflexivity | discriminate]. }
  destruct E as (h & H0 & Hacc & Hle).
  assert (R : reachable h) by (eapply reach_init; exact H0).
  destruct (update_unguarded h 0 [9] R) as (Hok & _).
  destruct (Hok Hacc) as (h' & H1 & Hx & Hs & _).
  exists h, h'. splits; assumption.
Defined.

(** ** The stepper *)


Lemma euler_returns (f : Q -> list Q -> result (list Q)) (y : list Q)
  (t target : Q) :
  exists y' t', euler f y t target = Ok (y', t') /\ length y' = length y.
Proof.
  unfold euler. destruct (f t y) as [dy | e]; [| eauto].
  destruct (length dy =? length y)%nat eqn:E; [| eauto].
  apply Nat.eqb_eq in E. eexists. eexists. split; [reflexivity |].
  rewrite length_map, length_combine, E. apply Nat.min_id.
Qed.

Section Stepper.

Variable ode_integrate :
  (Q -> list Q -> result (list Q)) -> list Q -> Q -> Q -> result (list Q * Q).

Lemma integrate_Ok (target : Q) (self self' : dde) (r : list Q) :
  integrate ode_integrate target self = Ok (r, self') ->
  exists h h',
    Y self = Some h /\
    ode_integrate (f2 self) (y self) (t self) target
    = Ok (y self', t self') /\
    ddeVar.update (t self') (y self') h = Ok h' /\
    r = y self' /\ Y self' = Some h' /\
    f self' = f self /\ f_params self' = f_params self.
Proof.
  unfold integrate. intros H.
  bind_inv H as p Hp. destruct p as (y', t').
  bind_inv H as h Hh. bind_inv H as h' Hh'.
  injection H as <- <-. simpl.
  destruct (Y self) as [h0 |]; [| discriminate].
  injection Hh as ->. exists h, h'. splits; auto.
Qed.

(** C7. [integrate] returns the solver's new state after appending it,
    with the solver's new time, to the history variable; the last sample
    time is then the solver's time. *)
Theorem integrate_appends (target : Q) (self : dde) (h : ddeVar.obj) :
  Y self = Some h -> reachable h ->
  (forall r self',
      integrate ode_integrate target self = Ok (r, self') ->
      r = y self' /\
      ode_integrate (f2 self) (y self) (t self) target
      = Ok (y self', t self') /\
      exists h',
        Y self' = Some h' /\
        ddeVar.samples h' = ddeVar.samples h ++ [(t self', y self')] /\
        last (times h') 0 = t self') /\
  (forall y' t',
      ode_integrate (f2 self) (y self) (t self) target = Ok (y', t') ->
      accepts h y' ->
      exists self', integrate ode_integrate target self = Ok (y', self')).
Proof.
  intros HY Hr. apply reachable_Inv in Hr. destruct Hr as (Htab & _).
  split.
  - intros r self' H. apply integrate_Ok in H.
    destruct H as (h0 & h' & HY0 & Hode & Hup & -> & HY' & _).
    rewrite HY in HY0. injection HY0 as <-.
    splits; auto. exists h'. split; [exact HY' |].
    split; [eapply update_samples; eassumption |].
    apply update_Ok in Hup. destruct Hup as (_ & _ & Hx & _).
    rewrite Hx. apply last_last.
  - intros y' t' Hode Hacc. unfold integrate. rewrite Hode, HY. simpl.
    destruct (update_total t' y' h Htab Hacc) as (h' & ->).
    simpl. eauto.
Qed.





End Stepper.

(** ** The driver *)

Section Driver.

Variable ode_integrate :
  (Q -> list Q -> result (list Q)) -> list Q -> Q -> Q -> result (list Q * Q).

Lemma set_initial_value_Ok (func : rhs) (h : ddeVar.obj) (v : value) :
  ddeVar.__call__ (ddeVar.tc h) h = Ok (v, h) ->
  set_initial_value h (dde__init__ func)
  = Ok (mk_dde func (Some h) (ddeVar.tc h) (to_array v) None).
Proof.
  intros H. unfold set_initial_value. rewrite H. reflexivity.
Qed.

Lemma ddeint_cons (func : rhs) (g : Q -> value) (t0 : Q) (rest : list Q)
  (fargs : option (list Q)) (Y0 : option value) (with_model : bool)
  (h : ddeVar.obj) (v : value) :
  ddeVar.__init__ g t0 Y0 = Ok h ->
  ddeVar.__call__ t0 h = Ok (v, h) ->
  ddeint ode_integrate func g (t0 :: rest) fargs Y0 with_model
  = ('(results, dde_) <- integrate_all ode_integrate (np_diff (t0 :: rest))
                           (started func h (to_array v) fargs) ;;
     Ok (g t0 :: map Arr results, if with_model then Y dde_ else None)).
Proof.
  intros H Hv. pose proof (init_Ok _ _ _ _ H) as (_ & Htc & _).
  rewrite <- Htc in Hv.
  unfold ddeint. change (index (t0 :: rest) 0) with (Ok t0).
  cbn [bind]. rewrite H. cbn [bind].
  rewrite (set_initial_value_Ok func h v Hv). cbn [bind].
  unfold started, set_f_params. cbn [f Y t y f_params].
  destruct (integrate_all _ _ _) as [[results dde_] | e]; cbn [bind];
    [| reflexivity].
  destruct with_model; reflexivity.
Qed.





End Driver.

(** ** Runs with the Euler stepper *)

Lemma h_scalar_init : ddeVar.__init__ g_scalar 0 None = Ok h_scalar.
Proof. reflexivity. Qed.

Lemma integrate_appends_witness :
  exists self' h',
    integrate euler (1 # 2) (started decay h_scalar [1] None)
    = Ok ([1 # 2], self') /\
    y self' = [1 # 2] /\ t self' = 1 # 2 /\
    Y self' = Some h' /\
    ddeVar.samples h' = ddeVar.samples h_scalar ++ [(1 # 2, [1 # 2])] /\
    last (times h') 0 = 1 # 2.
Proof.
  assert (R : reachable h_scalar)
    by (eapply reach_init; exact h_scalar_init).
  destruct (integrate_appends euler (1 # 2) (started decay h_scalar [1] None)
              h_scalar eq_refl R) as (HA & HB).
  destruct (HB [1 # 2] (1 # 2) eq_refl eq_refl) as (self' & Hself).
  destruct (HA _ _ Hself) as (_ & Hode & h' & HY' & Hs & Hlast).
  assert (Hc : euler (f2 (started decay h_scalar [1] None)) [1] 0 (1 # 2)
               = Ok ([1 # 2], 1 # 2)) by reflexivity.
  change (y (started decay h_scalar [1] None)) with [1] in Hode.
  change (t (started decay h_scalar [1] None)) with 0 in Hode.
  rewrite Hc in Hode. injection Hode as Ey Et.
  rewrite <- Ey, <- Et in Hs. rewrite <- Et in Hlast.
  exists self', h'. splits; auto.
Defined.




(** * Further properties *)

(** ** Increasing sample times *)

Lemma sorted_nth_lt (l : list Q) (i j : nat) (a b : Q) :
  StronglySorted Qlt l ->
  nth_error l j = Some a -> nth_error l i = Some b -> (j < i)%nat -> a < b.
Proof.
  intros Hs. revert i j.
  induction Hs as [| x l Hs IH Hx]; intros i j Ha Hb Hji.
  - destruct j; discriminate.
  - destruct i as [| i]; [lia |]. simpl in Hb.
    destruct j as [| j]; simpl in Ha.
    + injection Ha as <-. rewrite Forall_forall in Hx.
      apply Hx. eapply nth_error_In. exact Hb.
    + apply (IH i j Ha Hb). lia.
Qed.

Lemma nth_error_last (l : list Q) :
  l <> [] -> nth_error l (length l - 1) = Some (last l 0).
Proof.
  intros H. rewrite <- (nth_pred_length_last l 0).
  apply nth_error_nth'. destruct l; [contradiction | simpl; lia].
Qed.

Lemma sorted_le_last (l : list Q) (i : nat) (t : Q) :
  StronglySorted Qlt l -> nth_error l i = Some t -> t <= last l 0.
Proof.
  intros Hs Hi.
  assert (Hne : l <> []) by (intros ->; destruct i; discriminate).
  assert (Hlt : (i < length l)%nat)
    by (apply nth_error_Some; congruence).
  pose proof (nth_error_last l Hne) as Hl.
  destruct (Nat.eq_dec i (length l - 1)) as [-> | Hn].
  - rewrite Hl in Hi. injection Hi as <-. apply Qle_refl.
  - apply Qlt_le_weak.
    apply (sorted_nth_lt l (length l - 1) i t (last l 0) Hs Hi Hl). lia.
Qed.

Lemma sorted_ge_first (x0 : Q) (rest : list Q) (i : nat) (t : Q) :
  StronglySorted Qlt (x0 :: rest) ->
  nth_error (x0 :: rest) i = Some t -> x0 <= t.
Proof.
  intros Hs Hi. destruct i as [| i].
  - injection Hi as <-. apply Qle_refl.
  - apply Qlt_le_weak.
    apply (sorted_nth_lt (x0 :: rest) (S i) 0 x0 t Hs eq_refl Hi). lia.
Qed.

Lemma sorted_snoc (l : list Q) (x : Q) :
  StronglySorted Qlt l -> Forall (fun s => s < x) l ->
  StronglySorted Qlt (l ++ [x]).
Proof.
  induction 1 as [| a l Hs IH Ha]; intros Hx; simpl.
  - repeat constructor.
  - rewrite Forall_cons_iff in Hx. destruct Hx as (Hax & Hx).
    constructor; [apply IH; exact Hx |].
    apply Forall_app. split; [exact Ha | repeat constructor; exact Hax].
Qed.





Lemma nth_error_combine {A B : Type} (l : list A) (l' : list B) (k : nat)
  (a : A) (b : B) :
  nth_error (combine l l') k = Some (a, b) ->
  nth_error l k = Some a /\ nth_error l' k = Some b.
Proof.
  revert l l'. induction k as [| k IH]; intros [| x l] [| x' l'] H;
    try discriminate.
  - injection H as <- <-. auto.
  - apply IH. exact H.
Qed.

(** ** The stored samples *)

Lemma updates_reachable (l : list (Q * list Q)) (h h' : ddeVar.obj) :
  reachable h -> ddeVar.updates l h = Ok h' -> reachable h'.
Proof.
  revert h. induction l as [| [t Y] l IH]; simpl; intros h Hr H.
  - injection H as <-. exact Hr.
  - bind_inv H as h1 H1. apply (IH h1); [| exact H].
    eapply reach_update; eassumption.
Qed.

(** X4. [update] only ever appends: after any sequence of updates the
    stored samples are the former ones followed by the appended pairs, in
    the order of the calls. *)
Theorem updates_append (l : list (Q * list Q)) (h h' : ddeVar.obj) :
  reachable h -> ddeVar.updates l h = Ok h' ->
  reachable h' /\
  ddeVar.samples h' = ddeVar.samples h ++ l /\
  times h' = times h ++ map fst l.
Proof.
  revert h. induction l as [| [t Y] l IH]; simpl; intros h Hr H.
  - injection H as <-. rewrite !app_nil_r. auto.
  - bind_inv H as h1 H1.
    assert (Hr1 : reachable h1) by (eapply reach_update; eassumption).
    destruct (IH h1 Hr1 H) as (Hr' & Hs & Hx).
    pose proof (reachable_Inv h Hr) as (Htab & _).
    pose proof (update_samples _ _ _ _ Htab H1) as Hs1.
    apply update_Ok in H1. destruct H1 as (_ & _ & Hx1 & _).
    splits; [exact Hr' | |].
    + rewrite Hs, Hs1, <- app_assoc. reflexivity.
    + rewrite Hx, Hx1, <- app_assoc. reflexivity.
Qed.

Lemma updates_append_witness :
  exists h h',
    reachable h /\
    ddeVar.updates [(1 # 4, [7; 8]); (1 # 8, [5; 6])] h = Ok h' /\
    ddeVar.samples h' =
      ddeVar.samples h ++ [(1 # 4, [7; 8]); (1 # 8, [5; 6])] /\
    times h' = times h ++ [1 # 4; 1 # 8].
Proof.
  assert (E : exists h h',
             ddeVar.__init__ g_xy 0 None = Ok h /\
             ddeVar.updates [(1 # 4, [7; 8]); (1 # 8, [5; 6])] h = Ok h').
  { eexists. eexists. splits; reflexivity. }
  destruct E as (h & h' & H0 & H1).
  assert (R : reachable h) by (eapply reach_init; exact H0).
  destruct (updates_append _ h h' R H1) as (_ & Hs & Hx).
  exists h, h'. splits; assumption.
Defined.



(** ** Before the first update, and binding the stepper *)

Lemma fill_before_update_witness :
  exists h v,
    ddeVar.__init__ g_scalar 0 (Some (Num 5)) = Ok h /\
    0 < 1 /\
    ddeVar.__call__ 0 h = Ok (Num 5, h) /\
    ddeVar.__call__ 1 h = Ok (v, h) /\ to_array v = to_array (g_scalar 0).
Proof.
  assert (E : exists h,
             ddeVar.__init__ g_scalar 0 (Some (Num 5)) = Ok h /\
             ddeVar.__call__ 0 h = Ok (Num 5, h)).
  { eexists. splits; reflexivity. }
  destruct E as (h & H0 & Hc).
  destruct (fill_before_update g_scalar 0 1 (Some (Num 5)) h H0
              eq_refl eq_refl) as (v & Hv & Ev).
  exists h, v. splits; auto. reflexivity.
Defined.




(** X9. [update] writes to one table only: on a scalar history the rows
    [_y] are never touched, on an array history the columns [y] are never
    touched; after any number of updates they are the seeded ones. *)
Theorem update_leaves_other_table (l : list (Q * list Q))
  (h h' : ddeVar.obj) :
  reachable h -> ddeVar.updates l h = Ok h' ->
  match interp1d.y (ddeVar.itpr h) with
  | A1 _ => interp1d._y (ddeVar.itpr h') = interp1d._y (ddeVar.itpr h)
  | A2 m => interp1d.y (ddeVar.itpr h') = A2 m
  end.
Proof.
  revert h. induction l as [| [t Y] l IH]; simpl; intros h Hr H.
  - injection H as <-. destruct (interp1d.y (ddeVar.itpr h)); reflexivity.
  - bind_inv H as h1 H1.
    assert (Hr1 : reachable h1) by (eapply reach_update; eassumption).
    specialize (IH h1 Hr1 H).
    pose proof (reachable_Inv h Hr) as ((_ & Htab) & _).
    apply update_Ok in H1. destruct H1 as (_ & _ & _ & _ & Hcase).
    destruct Hcase as [(HY & ys & Hy & Hy' & H_y) | (HY & Hy' & H_y & Hw)].
    + rewrite Hy. rewrite Hy' in IH. congruence.
    + rewrite Hy' in IH.
      destruct (interp1d.y (ddeVar.itpr h)) as [ys | m]; [| exact IH].
      destruct Htab as (_ & _ & Hne & Hw1). exfalso. apply HY.
      destruct (interp1d._y (ddeVar.itpr h)) as [| r rows];
        [contradiction |].
      inversion Hw as [| ? ? Hr0 _]. inversion Hw1 as [| ? ? Hr01 _].
      congruence.
Qed.

Lemma update_leaves_other_table_witness :
  exists h h',
    reachable h /\
    ddeVar.updates [(1 # 4, [7; 8]); (1 # 2, [5; 6])] h = Ok h' /\
    interp1d.y (ddeVar.itpr h') = interp1d.y (ddeVar.itpr h) /\
    length (interp1d._y (ddeVar.itpr h')) = 5%nat.
Proof.
  assert (E : exists h h' m,
             ddeVar.__init__ g_xy 0 None = Ok h /\
             ddeVar.updates [(1 # 4, [7; 8]); (1 # 2, [5; 6])] h = Ok h' /\
             interp1d.y (ddeVar.itpr h) = A2 m /\
             length (interp1d._y (ddeVar.itpr h')) = 5%nat).
  { eexists. eexists. eexists. splits; reflexivity. }
  destruct E as (h & h' & m & H0 & H1 & Hy & Hlen).
  assert (R : reachable h) by (eapply reach_init; exact H0).
  pose proof (update_leaves_other_table _ h h' R H1) as Hst.
  rewrite Hy in Hst.
  exists h, h'. splits; auto. congruence.
Defined.

(** ** Runs of the driver *)






Section Runs_of_the_driver.

Variable ode_integrate :
  (Q -> list Q -> result (list Q)) -> list Q -> Q -> Q -> result (list Q * Q).

Lemma reaches_returns :
  solver_reaches ode_integrate -> solver_returns ode_integrate.
Proof.
  intros H f y t target. destruct (H f y t target) as (y' & Hy & Hl).
  eauto.
Qed.






End Runs_of_the_driver.

(** ** Failures of the driver *)

Section Failures.

Variable ode_integrate :
  (Q -> list Q -> result (list Q)) -> list Q -> Q -> Q -> result (list Q * Q).

Lemma integrate_all_raise (dts1 dts2 : list Q) (dt : Q) (s s1 : dde)
  (rs : list (list Q)) (e : exn) :
  integrate_all ode_integrate dts1 s = Ok (rs, s1) ->
  integrate ode_integrate (t s1 + dt) s1 = Raise e ->
  integrate_all ode_integrate (dts1 ++ dt :: dts2) s = Raise e.
Proof.
  revert s rs. induction dts1 as [| d dts1 IH]; intros s rs H He.
  - simpl in H. injection H as _ <-. simpl. rewrite He. reflexivity.
  - simpl in H. bind_inv H as p Hp. destruct p as (r, s0).
    bind_inv H as p' Hp'. destruct p' as (rs', s2).
    injection H as _ <-.
    simpl. rewrite Hp. cbn [bind]. rewrite (IH s0 rs' Hp' He). reflexivity.
Qed.

(** X8. The driver keeps no partial result: when an advance raises, after
    any number of advances that returned, the driver raises the same
    exception. *)
Theorem ddeint_propagates (func : rhs) (g : Q -> value) (t0 : Q)
  (rest : list Q) (fargs : option (list Q)) (Y0 : option value)
  (with_model : bool) (h : ddeVar.obj) (v : value)
  (dts1 dts2 : list Q) (dt : Q) (rs : list (list Q)) (s1 : dde) (e : exn) :
  ddeVar.__init__ g t0 Y0 = Ok h ->
  ddeVar.__call__ t0 h = Ok (v, h) ->
  np_diff (t0 :: rest) = dts1 ++ dt :: dts2 ->
  integrate_all ode_integrate dts1 (started func h (to_array v) fargs)
  = Ok (rs, s1) ->
  integrate ode_integrate (t s1 + dt) s1 = Raise e ->
  ddeint ode_integrate func g (t0 :: rest) fargs Y0 with_model = Raise e.
Proof.
  intros H Hv Hd Hall He.
  rewrite (ddeint_cons ode_integrate func g t0 rest fargs Y0 with_model
             h v H Hv).
  rewrite Hd, (integrate_all_raise dts1 dts2 dt _ s1 rs e Hall He).
  reflexivity.
Qed.

(** X2. A system whose state is an array of one element cannot be
    advanced: with a solver that returns, the first advance raises
    [ValueError] in [update], and so does the driver on every grid of two
    times or more. *)
Theorem ddeint_one_element_array (func : rhs) (g : Q -> value) (t0 t1 : Q)
  (rest : list Q) (fargs : option (list Q)) (Y0 : option value)
  (with_model : bool) :
  let Y0' := match Y0 with
             | None => g t0
             | Some v => v
             end in
  solver_returns ode_integrate ->
  shape (g (t0 - 1)) = Some 1%nat -> shape (g (t0 - eps)) = Some 1%nat ->
  shape (g t0) = Some 1%nat -> shape Y0' = Some 1%nat ->
  ddeint ode_integrate func g (t0 :: t1 :: rest) fargs Y0 with_model
  = Raise ValueError.
Proof.
  intros Y0' Hsol S1 S2 S3 S4.
  destruct (init_total g t0 Y0) as (h & H);
    try (fold Y0'; congruence).
  destruct (init_call_tc _ _ _ _ H) as (v & Hv & _ & Hs & _).
  fold Y0' in Hs. rewrite S4 in Hs.
  pose proof (init_Ok _ _ _ _ H) as (_ & _ & _ & _ & _ & _ & Hy).
  fold Y0' in Hy.
  rewrite (ddeint_cons ode_integrate func g t0 (t1 :: rest) fargs Y0
             with_model h v H Hv).
  change (np_diff (t0 :: t1 :: rest))
    with ((t1 - t0) :: np_diff (t1 :: rest)).
  cbn [integrate_all]. unfold integrate at 1.
  destruct (Hsol (f2 (started func h (to_array v) fargs))
              (y (started func h (to_array v) fargs))
              (t (started func h (to_array v) fargs))
              (t (started func h (to_array v) fargs) + (t1 - t0)))
    as (y' & t' & Hode & Hlen).
  rewrite Hode. cbn [bind Y started].
  destruct (interp1d.y (ddeVar.itpr h)) as [ys | m] eqn:Ey.
  - destruct Hy as (q & EY & _). rewrite EY in S4. discriminate.
  - assert (Hy1 : length y' = 1%nat).
    { rewrite Hlen. simpl. destruct v as [q | l]; [reflexivity |].
      simpl in Hs |- *. congruence. }
    rewrite (update_one_element_array t' y' h m Ey Hy1). reflexivity.
Qed.

End Failures.



Lemma ddeint_one_element_array_witness :
  ddeint euler decay g_one [0; 1 # 2; 1] None None false = Raise ValueError.
Proof.
  exact (ddeint_one_element_array euler decay g_one 0 (1 # 2) [1] None None
           false euler_returns eq_refl eq_refl eq_refl eq_refl).
Defined.

Lemma ddeint_propagates_witness :
  ddeint (euler_until (1 # 2)) decay g_scalar [0; 1 # 2; 1] None None false
  = Raise ValueError.
Proof.
  assert (E : exists s1,
             integrate_all (euler_until (1 # 2)) [(1 # 2) - 0]
               (started decay h_scalar (to_array (Num (1 + 0))) None)
             = Ok ([[1 # 2]], s1) /\
             integrate (euler_until (1 # 2)) (t s1 + (1 - (1 # 2))) s1
             = Raise ValueError).
  { eexists. split; reflexivity. }
  destruct E as (s1 & Hall & He).
  exact (ddeint_propagates (euler_until (1 # 2)) decay g_scalar 0
           [1 # 2; 1] None None false h_scalar (Num (1 + 0))
           [(1 # 2) - 0] [] (1 - (1 # 2)) [[1 # 2]] s1 ValueError
           h_scalar_init eq_refl eq_refl Hall He).
Defined.

(** ** Between two samples *)

Lemma scan_between (i : nat) (x0 : Q) (rest : list Q) (a b t : Q) :
  StronglySorted Qlt (x0 :: rest) ->
  nth_error (x0 :: rest) i = Some a ->
  nth_error (x0 :: rest) (S i) = Some b ->
  a < t -> t < b -> interp1d.scan t rest = i.
Proof.
  revert x0 rest. induction i as [| i IH]; intros x0 rest Hs Ha Hb Hat Htb.
  - destruct rest as [| c rest]; [discriminate |].
    simpl in Hb. injection Hb as ->. simpl.
    destruct (Qle_bool b t) eqn:E; [| reflexivity].
    apply Qle_bool_iff in E. lra.
  - destruct rest as [| c rest]; [destruct i; discriminate |].
    pose proof (StronglySorted_inv Hs) as (Hs' & _).
    simpl in Ha. change (nth_error (c :: rest) (S i) = Some b) in Hb.
    pose proof (sorted_ge_first c rest i a Hs' Ha) as Hca.
    assert (Hct : c <= t) by lra. apply Qle_bool_iff in Hct.
    simpl. rewrite Hct. rewrite (IH c rest Hs' Ha Hb Hat Htb). reflexivity.
Qed.

Lemma searchsorted_between (i : nat) (xs : list Q) (a b t : Q) :
  StronglySorted Qlt xs ->
  nth_error xs i = Some a -> nth_error xs (S i) = Some b ->
  a < t -> t <= b -> interp1d.searchsorted xs t = S i.
Proof.
  revert xs. induction i as [| i IH]; intros [| c xs] Hs Ha Hb Hat Htb;
    try discriminate.
  - injection Ha as ->. destruct xs as [| d xs]; [discriminate |].
    simpl in Hb. injection Hb as ->.
    apply Qltb_lt in Hat. apply Qltb_ge in Htb.
    simpl. rewrite Hat, Htb. reflexivity.
  - pose proof (StronglySorted_inv Hs) as (Hs' & _).
    simpl in Ha. change (nth_error xs (S i) = Some b) in Hb.
    pose proof (sorted_ge_first c xs (S i) a Hs Ha) as Hca.
    assert (Hct : c < t) by lra. apply Qltb_lt in Hct.
    simpl. rewrite Hct. rewrite (IH xs Hs' Ha Hb Hat Htb). reflexivity.
Qed.

(** X10. With increasing sample times, a call at a time strictly between
    two consecutive stored samples, not before [tc], returns the point of
    the straight line through the two samples. *)
Theorem piecewise_linear (h : ddeVar.obj) (i : nat) (a b t : Q)
  (Ya Yb : list Q) :
  reachable h -> StronglySorted Qlt (times h) ->
  nth_error (ddeVar.samples h) i = Some (a, Ya) ->
  nth_error (ddeVar.samples h) (S i) = Some (b, Yb) ->
  a < t -> t < b -> ddeVar.tc h <= t ->
  exists v,
    ddeVar.__call__ t h = Ok (v, h) /\
    to_array v = interp1d.lerp a b t Ya Yb.
Proof.
  intros Hr Hs Hia Hib Hat Htb Htc. apply reachable_Inv in Hr.
  destruct Hr as ((H2 & Htab) & rest & Hseed).
  rewrite (call_from_tc h t Htc). unfold interp1d.call.
  unfold ddeVar.samples in Hia, Hib. unfold times in Hs, Hseed.
  assert (Hx0 : index (interp1d.x (ddeVar.itpr h)) 0
                = Ok (ddeVar.tc h - 1)) by (rewrite Hseed; reflexivity).
  assert (Hbelow : Qltb t (ddeVar.tc h - 1) = false).
  { apply Qltb_ge. pose proof (before_tc_1 (ddeVar.tc h)). lra. }
  destruct (interp1d.y (ddeVar.itpr h)) as [ys | m].
  - apply nth_error_combine in Hia, Hib.
    destruct Hia as (Ha & Hqa), Hib as (Hb & Hqb).
    rewrite nth_error_map in Hqa, Hqb.
    destruct (nth_error ys i) as [qa |] eqn:Ea; [| discriminate].
    destruct (nth_error ys (S i)) as [qb |] eqn:Eb; [| discriminate].
    injection Hqa as <-. injection Hqb as <-.
    destruct Htab as (Hlen & _).
    pose proof (sorted_le_last _ _ _ Hs Hb) as Hlast.
    assert (Habove : Qltb (last (interp1d.x (ddeVar.itpr h)) 0) t = false)
      by (apply Qltb_ge; lra).
    assert (Hlt : (S i < length (interp1d.x (ddeVar.itpr h)))%nat)
      by (apply nth_error_Some; congruence).
    assert (Hinterp : interp1d.np_interp t (interp1d.x (ddeVar.itpr h)) ys
                      = Ok ((qb - qa) / (b - a) * (t - a) + qa)).
    { unfold interp1d.np_interp. rewrite <- Hlen, Nat.eqb_refl.
      simpl negb. cbv iota. rewrite Habove.
      destruct (interp1d.x (ddeVar.itpr h)) as [| x0 xs] eqn:Ex;
        [destruct i; discriminate |].
      injection Hx0 as Ex0. rewrite Ex0, Hbelow.
      rewrite <- Ex0.
      rewrite (scan_between i x0 xs a b t Hs Ha Hb Hat Htb).
      assert (E1 : (i =? length ys - 1)%nat = false)
        by (apply Nat.eqb_neq; lia).
      rewrite E1.
      rewrite (nth_error_nth _ i 0 Ha), (nth_error_nth _ (S i) 0 Hb).
      rewrite (nth_error_nth _ i 0 Ea), (nth_error_nth _ (S i) 0 Eb).
      destruct (Qeq_bool a t) eqn:E2; [| reflexivity].
      apply Qeq_bool_iff in E2. lra. }
    rewrite Hinterp. cbn [bind]. rewrite Hx0. cbn [bind].
    rewrite Hbelow, Habove. simpl. eexists. split; reflexivity.
  - apply nth_error_combine in Hia, Hib.
    destruct Hia as (Ha & HYa), Hib as (Hb & HYb).
    destruct Htab as (Hlen & _).
    pose proof (sorted_le_last _ _ _ Hs Hb) as Hlast.
    assert (Habove : Qltb (last (interp1d.x (ddeVar.itpr h)) 0) t = false)
      by (apply Qltb_ge; lra).
    assert (Hlt : (S i < length (interp1d.x (ddeVar.itpr h)))%nat)
      by (apply nth_error_Some; congruence).
    assert (Hlin : interp1d._call_linear (ddeVar.itpr h) t
                   = Ok (interp1d.lerp a b t Ya Yb)).
    { unfold interp1d._call_linear.
      rewrite (searchsorted_between i _ a b t Hs Ha Hb Hat
                 (Qlt_le_weak _ _ Htb)).
      replace (interp1d.clip (S i) 1
                 (length (interp1d.x (ddeVar.itpr h)) - 1)) with (S i)
        by (unfold interp1d.clip; lia).
      replace (S i - 1)%nat with i by lia.
      unfold index. rewrite Ha, Hb, HYa, HYb. reflexivity. }
    rewrite Hlin. cbn [bind]. rewrite Hx0. cbn [bind].
    rewrite Hbelow, Habove. simpl. eexists. split; reflexivity.
Qed.

Lemma piecewise_linear_witness :
  exists h v,
    reachable h /\ StronglySorted Qlt (times h) /\
    nth_error (ddeVar.samples h) 3 = Some (1 # 4, [7; 8]) /\
    nth_error (ddeVar.samples h) 4 = Some (1 # 2, [5; 6]) /\
    ddeVar.__call__ (3 # 8) h = Ok (v, h) /\
    to_array v = interp1d.lerp (1 # 4) (1 # 2) (3 # 8) [7; 8] [5; 6] /\
    Forall2 Qeq (to_array v) [6; 7].
Proof.
  assert (E : exists h0 h,
             ddeVar.__init__ g_xy 0 None = Ok h0 /\
             ddeVar.updates [(1 # 4, [7; 8]); (1 # 2, [5; 6])] h0 = Ok h /\
             times h = [0 - 1; 0 - eps; 0; 1 # 4; 1 # 2] /\
             nth_error (ddeVar.samples h) 3 = Some (1 # 4, [7; 8]) /\
             nth_error (ddeVar.samples h) 4 = Some (1 # 2, [5; 6]) /\
             ddeVar.tc h <= 3 # 8).
  { eexists. eexists. splits; try reflexivity. discriminate. }
  destruct E as (h0 & h & H0 & H1 & Hx & Hk3 & Hk4 & Htc).
  assert (R : reachable h).
  { eapply updates_reachable; [eapply reach_init; exact H0 | exact H1]. }
  assert (S : StronglySorted Qlt (times h))
    by (rewrite Hx; repeat constructor; reflexivity).
  destruct (piecewise_linear h 3 (1 # 4) (1 # 2) (3 # 8) [7; 8] [5; 6]
              R S Hk3 Hk4 eq_refl eq_refl Htc) as (v & Hv & Ev).
  exists h, v. splits; auto.
  rewrite Ev. repeat constructor; reflexivity.
Defined.

(** ** Shapes and parameters *)

Lemma update_Ok_accepts (t : Q) (Y : list Q) (h h' : ddeVar.obj) :
  tabular (ddeVar.itpr h) -> ddeVar.update t Y h = Ok h' -> accepts h Y.
Proof.
  intros (H2 & Htab) H. apply update_Ok in H.
  destruct H as (_ & _ & _ & _ & Hcase). unfold accepts.
  destruct Hcase as [(HY & ys & Hy & _) | (HY & _ & _ & Hw)].
  - rewrite Hy. exact HY.
  - destruct (interp1d.y (ddeVar.itpr h)) as [ys | m].
    + destruct Htab as (_ & _ & Hne & Hw1). exfalso. apply HY.
      destruct (interp1d._y (ddeVar.itpr h)) as [| r rows];
        [contradiction |].
      inversion Hw as [| ? ? Hr _]. inversion Hw1 as [| ? ? Hr1 _].
      congruence.
    + destruct Htab as (Hlen & Hwm & _).
      assert (HYm : length Y = length m).
      { destruct (interp1d._y (ddeVar.itpr h)) as [| r rows];
          [simpl in Hlen; lia |].
        inversion Hw as [| ? ? Hr _]. inversion Hwm as [| ? ? Hrm _].
        congruence. }
      split; [exact HYm | congruence].
Qed.

(** X12. The shape of the state is fixed when the history variable is
    built: at any time, [update] with an array of another length (for a
    scalar history, of a length other than one) raises [ValueError]. *)
Theorem update_refuses_other_shapes (h : ddeVar.obj) (t : Q) (Y : list Q) :
  reachable h -> ~ accepts h Y -> ddeVar.update t Y h = Raise ValueError.
Proof.
  intros Hr Hn. apply reachable_Inv in Hr. destruct Hr as (Htab & _).
  destruct (ddeVar.update t Y h) as [h' | e] eqn:E.
  - exfalso. apply Hn. eapply update_Ok_accepts; eassumption.
  - apply update_raises in E. rewrite E. reflexivity.
Qed.

Lemma update_refuses_other_shapes_witness :
  exists h,
    reachable h /\ ~ accepts h [7; 8; 9] /\
    ddeVar.update (1 # 4) [7; 8; 9] h = Raise ValueError.
Proof.
  assert (E : exists h m,
             ddeVar.__init__ g_xy 0 None = Ok h /\
             interp1d.y (ddeVar.itpr h) = A2 m /\ length m = 2%nat).
  { eexists. eexists. splits; reflexivity. }
  destruct E as (h & m & H0 & Hy & Hm).
  assert (R : reachable h) by (eapply reach_init; exact H0).
  assert (N : ~ accepts h [7; 8; 9]).
  { unfold accepts. rewrite Hy, Hm. simpl. intros (C & _). discriminate. }
  exists h. splits; [exact R | exact N |].
  exact (update_refuses_other_shapes h (1 # 4) [7; 8; 9] R N).
Defined.

Section Parameters.

Variable ode_integrate :
  (Q -> list Q -> result (list Q)) -> list Q -> Q -> Q -> result (list Q * Q).

Lemma integrate_all_keeps (dts : list Q) (s s' : dde)
  (rs : list (list Q)) (h : ddeVar.obj) :
  Y s = Some h ->
  integrate_all ode_integrate dts s = Ok (rs, s') ->
  f s' = f s /\ f_params s' = f_params s /\ exists h', Y s' = Some h'.
Proof.
  revert s rs h. induction dts as [| dt dts IH]; intros s rs h HY H.
  - simpl in H. injection H as _ <-. eauto.
  - simpl in H. bind_inv H as p Hp. destruct p as (r, s1).
    bind_inv H as p' Hp'. destruct p' as (rs', s2).
    injection H as _ <-.
    apply integrate_Ok in Hp.
    destruct Hp as (h0 & h1 & _ & _ & _ & _ & HY1 & Hf & Hp).
    destruct (IH s1 rs' h1 HY1 Hp') as (Hf' & Hp'' & Hex).
    splits; [congruence | congruence | exact Hex].
Qed.

(** X11. At every advance of a run the derivative handed to the solver is
    [func] applied to the history variable of the moment, the time, and
    the extra arguments given to the driver (none when [fargs] is absent);
    the state argument of the solver is not passed on. *)
Theorem run_passes_parameters (func : rhs) (h : ddeVar.obj) (y0 : list Q)
  (fargs : option (list Q)) (dts : list Q) (rs : list (list Q)) (s' : dde) :
  integrate_all ode_integrate dts (started func h y0 fargs) = Ok (rs, s') ->
  exists h',
    Y s' = Some h' /\
    forall t y,
      f2 s' t y = func (ddeVar.as_function h') t match fargs with
                                                 | Some args => args
                                                 | None => []
                                                 end.
Proof.
  intros H.
  destruct (integrate_all_keeps dts (started func h y0 fargs) s' rs h
              eq_refl H) as (Hf & Hp & h' & HY).
  exists h'. split; [exact HY |]. intros t y.
  unfold f2. rewrite HY, Hp, Hf. reflexivity.
Qed.

End Parameters.

Lemma run_passes_parameters_witness :
  exists s' h',
    integrate_all euler [1 # 2; 1 # 2]
      (started decay h_scalar [1] (Some [1 # 2]))
    = Ok ([[1 # 2]; [1 # 4]], s') /\
    Y s' = Some h' /\
    forall t y, f2 s' t y = decay (ddeVar.as_function h') t [1 # 2].
Proof.
  assert (E : exists s',
             integrate_all euler [1 # 2; 1 # 2]
               (started decay h_scalar [1] (Some [1 # 2]))
             = Ok ([[1 # 2]; [1 # 4]], s')).
  { eexists. reflexivity. }
  destruct E as (s' & H).
  destruct (run_passes_parameters euler decay h_scalar [1] (Some [1 # 2])
              _ _ s' H) as (h' & HY & Hf).
  exists s', h'. splits; assumption.
Defined.
